(** * MemoryPilot: the memory store, the extraction pipeline and the batcher

    A shallow embedding of the Go sources of MemoryPilot:

    - [internal/store]     the SQLite-backed store ([CreateMemory], [Recall],
                           [recordAccess], [DecayImportance], [CreateEvent],
                           [MarkEventProcessed]);
    - [internal/extractor] the Ollama extraction gateway ([Extract]);
    - [internal/agent]     the dispatcher ([processEvents], [processBatch]);
    - [internal/watcher]   the three event producers and their non-blocking
                           send on the event queue;
    - [cmd/remember.go], [internal/mcp/server.go]   the two remember surfaces.

    Modelling conventions.

    - SQLite [REAL] columns and Go [float64] values (confidence, importance)
      are exact rationals [Q]; rounding of binary floating point is not
      modelled.
    - A timestamp is an instant, counted in seconds ([Z]); the textual
      encoding of [DATETIME] columns and its time zone are not modelled.
    - A table is the list of its rows in insertion order. The statements of
      the sources are translated clause by clause: [WHERE] is a filter,
      [ORDER BY] a stable sort, [LIMIT] a prefix, [UPDATE ... SET ... WHERE]
      a map that rewrites the rows selected.
    - [time.Now()] and [ulid.Make()] are read from the environment: the
      functions below take the value read as an argument, or a function
      from the iteration index to the value read in that iteration.
    - [log.Printf] appends a line to a log that the functions return.
    - The database engine does not fail: a statement returns an error only
      when a constraint of the schema rejects it. Table [projects] plays no
      part in what follows and is left out. *)

From Stdlib Require Import ZArith QArith Qminmax Lqa Lia Bool List String Ascii.
From Stdlib Require Import Sorted Permutation.
Import ListNotations.

Open Scope string_scope.
Open Scope list_scope.
Open Scope Z_scope.

(** ** Results of fallible calls *)

Inductive result (A : Type) : Type :=
| Ok (a : A)
| Err (msg : string).

Arguments Ok {A} a.
Arguments Err {A} msg.

(** ** Data model (package [models]) *)

Definition Time := Z.

(** Modelled from the spec: package [pkg/models] is not part of the sources
    at hand. The records below have the fields that the store, the agent and
    the commands read and write; the constants have the values that the
    [CHECK] constraints of the schema and the spec give them. *)
Record Source : Type := mkSource {
  SourceType : string;
  Reference : string;
  Timestamp : Time
}.

Record Memory : Type := mkMemory {
  ID : string;
  Type_ : string;
  Content : string;
  Summary : string;
  Scope : string;
  ProjectID : option string;
  TeamID : option string;
  Source_ : Source;
  Confidence : Q;
  Importance : Q;
  Topics : list string;
  RelatedMemories : list string;
  Embedding : option (list Q);
  CreatedAt : Time;
  LastAccessedAt : Time;
  AccessCount : Z;
  ExpiresAt : option Time
}.

Definition MemoryScopePersonal : string := "personal".
Definition SourceTypeManual : string := "manual".
Definition SourceTypeGit : string := "git".

(** Values of the heterogeneous payload [map[string]interface{}] of an event. *)
Inductive Value : Type :=
| VString (s : string)
| VInt (n : Z)
| VStrings (l : list string).

Record Event : Type := mkEvent {
  EventID : string;
  EventType : string;
  EventTimestamp : Time;
  Data : list (string * Value);
  EventProjectID : option string
}.

Record RecallRequest : Type := mkRecallRequest {
  Query : string;
  ReqScope : list string;
  ReqTypes : list string;
  ReqProjectID : option string;
  Limit : Z
}.

(** ** The store (package [store]) *)

(** A row of table [events]: the event and its [processed_at] column. *)
Record EventRow : Type := mkEventRow {
  row_event : Event;
  processed_at : option Time
}.

Record Store : Type := mkStore {
  memories : list Memory;
  events : list EventRow
}.

Definition emptyStore : Store := mkStore [] [].

(** The [CHECK] constraints of table [memories]. *)
Definition memory_types : list string :=
  ["decision"; "pattern"; "fact"; "preference"; "mistake"; "learning"].

Definition memory_scopes : list string :=
  ["personal"; "project"; "team"; "org"].

Definition str_in (x : string) (l : list string) : bool :=
  existsb (String.eqb x) l.

Definition has_memory (id : string) (s : Store) : bool :=
  existsb (fun r => String.eqb (ID r) id) (memories s).

Definition has_event (id : string) (s : Store) : bool :=
  existsb (fun r => String.eqb (EventID (row_event r)) id) (events s).

Definition set_embedding (e : option (list Q)) (m : Memory) : Memory :=
  mkMemory (ID m) (Type_ m) (Content m) (Summary m) (Scope m) (ProjectID m)
    (TeamID m) (Source_ m) (Confidence m) (Importance m) (Topics m)
    (RelatedMemories m) e (CreatedAt m) (LastAccessedAt m) (AccessCount m)
    (ExpiresAt m).

(** [CreateMemory]: one [INSERT]. The primary key and the two [CHECK]
    constraints can reject the row; the embedding column is always written
    as [NULL]. *)
Definition CreateMemory (m : Memory) (s : Store) : result Store :=
  if has_memory (ID m) s then Err "UNIQUE constraint failed: memories.id"
  else if negb (str_in (Type_ m) memory_types) then Err "CHECK constraint failed: type"
  else if negb (str_in (Scope m) memory_scopes) then Err "CHECK constraint failed: scope"
  else Ok (mkStore (memories s ++ [set_embedding None m]) (events s)).

(** Modelled from the spec: [UpdateMemoryEmbedding] is called by
    [processBatch] but its definition is not part of the sources at hand; it
    stores the vector of the memory with the given id. *)
Definition UpdateMemoryEmbedding (id : string) (e : list Q) (s : Store) : Store :=
  mkStore
    (map (fun m => if String.eqb (ID m) id then set_embedding (Some e) m else m)
         (memories s))
    (events s).

Definition set_importance (q : Q) (m : Memory) : Memory :=
  mkMemory (ID m) (Type_ m) (Content m) (Summary m) (Scope m) (ProjectID m)
    (TeamID m) (Source_ m) (Confidence m) q (Topics m) (RelatedMemories m)
    (Embedding m) (CreatedAt m) (LastAccessedAt m) (AccessCount m)
    (ExpiresAt m).

(** The [SET] clause of [recordAccess]. *)
Definition access_update (now : Time) (m : Memory) : Memory :=
  mkMemory (ID m) (Type_ m) (Content m) (Summary m) (Scope m) (ProjectID m)
    (TeamID m) (Source_ m) (Confidence m)
    (Qmin 1.0 (Importance m * 1.05))
    (Topics m) (RelatedMemories m) (Embedding m) (CreatedAt m)
    now (AccessCount m + 1) (ExpiresAt m).

(** [recordAccess]: [UPDATE memories SET ... WHERE id = ?]. *)
Definition recordAccess (now : Time) (memoryID : string) (s : Store) : Store :=
  mkStore
    (map (fun m => if String.eqb (ID m) memoryID then access_update now m else m)
         (memories s))
    (events s).

Definition Qltb (x y : Q) : bool := negb (Qle_bool y x).

Definition one_day : Z := 86400.

(** The [WHERE] clause of [DecayImportance]:
    [importance > 0.1 AND last_accessed_at < datetime('now', '-1 day')]. *)
Definition decay_selects (now : Time) (m : Memory) : bool :=
  Qltb 0.1 (Importance m) && (LastAccessedAt m <? now - one_day).

(** The [SET] clause of [DecayImportance]: [importance = importance * 0.99]. *)
Definition decay_update (m : Memory) : Memory :=
  set_importance (Importance m * 0.99) m.

Definition DecayImportance (now : Time) (s : Store) : Store :=
  mkStore
    (map (fun m => if decay_selects now m then decay_update m else m)
         (memories s))
    (events s).

(** *** [Recall] *)

(** ASCII case folding of SQLite's [LIKE]: only the letters [A]-[Z] fold. *)
Definition fold_case (c : ascii) : ascii :=
  let n := nat_of_ascii c in
  if ((65 <=? n) && (n <=? 90))%nat then ascii_of_nat (n + 32) else c.

Definition like_char (p c : ascii) : bool :=
  Ascii.eqb (fold_case p) (fold_case c).

(** SQLite's [LIKE] without an [ESCAPE] clause: [%] stands for any run of
    characters, [_] for exactly one, any other character for itself up to
    ASCII case. Strings are byte strings: [_] consumes one byte, as SQLite
    does on ASCII text. *)
Fixpoint like (pattern : string) : string -> bool :=
  match pattern with
  | EmptyString => fun text =>
      match text with EmptyString => true | String _ _ => false end
  | String p pattern' =>
      if Ascii.eqb p "%" then
        fix skip (text : string) : bool :=
          like pattern' text
          || match text with
             | EmptyString => false
             | String _ text' => skip text'
             end
      else if Ascii.eqb p "_" then fun text =>
        match text with
        | EmptyString => false
        | String _ text' => like pattern' text'
        end
      else fun text =>
        match text with
        | EmptyString => false
        | String c text' => like_char p c && like pattern' text'
        end
  end.

(** [searchTerm := "%" + req.Query + "%"] *)
Definition searchTerm (query : string) : string := ("%" ++ query ++ "%")%string.

Definition scope_filter (req : RecallRequest) (m : Memory) : bool :=
  match ReqScope req with
  | [] => true
  | scopes => str_in (Scope m) scopes
  end.

Definition type_filter (req : RecallRequest) (m : Memory) : bool :=
  match ReqTypes req with
  | [] => true
  | types => str_in (Type_ m) types
  end.

Definition project_filter (req : RecallRequest) (m : Memory) : bool :=
  match ReqProjectID req with
  | None => true
  | Some p =>
      match ProjectID m with
      | None => true
      | Some q => String.eqb q p
      end
  end.

(** The text filter; [marshal] is [json.Marshal] on the topic list, whose
    result [CreateMemory] writes to column [topics]. *)
Definition text_filter (marshal : list string -> string)
    (req : RecallRequest) (m : Memory) : bool :=
  match Query req with
  | EmptyString => true
  | q =>
      like (searchTerm q) (Content m)
      || like (searchTerm q) (Summary m)
      || like (searchTerm q) (marshal (Topics m))
  end.

(** The [WHERE] clause that [Recall] builds. *)
Definition recall_where (marshal : list string -> string)
    (req : RecallRequest) (m : Memory) : bool :=
  scope_filter req m && type_filter req m && project_filter req m
  && text_filter marshal req m.

(** [ORDER BY importance DESC, last_accessed_at DESC]: [ranks_before a b]
    when row [a] may precede row [b]. *)
Definition ranks_before (a b : Memory) : bool :=
  match Qcompare (Importance a) (Importance b) with
  | Gt => true
  | Lt => false
  | Eq => LastAccessedAt b <=? LastAccessedAt a
  end.

Fixpoint insert_ranked (m : Memory) (l : list Memory) : list Memory :=
  match l with
  | [] => [m]
  | x :: l' => if ranks_before m x then m :: l else x :: insert_ranked m l'
  end.

Definition order_by (l : list Memory) : list Memory :=
  fold_right insert_ranked [] l.

(** [limit := req.Limit; if limit <= 0 { limit = 5 }] *)
Definition recall_limit (req : RecallRequest) : Z :=
  if Limit req <=? 0 then 5 else Limit req.

(** The rows of the [SELECT] of [Recall], in the order of the result. *)
Definition recall_rows (marshal : list string -> string)
    (req : RecallRequest) (s : Store) : list Memory :=
  firstn (Z.to_nat (recall_limit req))
         (order_by (filter (recall_where marshal req) (memories s))).

(** [rows.Scan]: the embedding column is not selected. *)
Definition scan_row (m : Memory) : Memory := set_embedding None m.

(** The loop over the rows: the [i]-th iteration appends the row to the
    result and calls [recordAccess], which reads the clock. *)
Fixpoint record_accesses (clock : nat -> Time) (i : nat) (rows : list Memory)
    (s : Store) : Store :=
  match rows with
  | [] => s
  | m :: rest => record_accesses clock (S i) rest (recordAccess (clock i) (ID m) s)
  end.

Definition Recall (marshal : list string -> string) (clock : nat -> Time)
    (req : RecallRequest) (s : Store) : list Memory * Store :=
  let rows := recall_rows marshal req s in
  (map scan_row rows, record_accesses clock 0 rows s).

(** *** Events *)

(** [CreateEvent]: one [INSERT] into [events]; the primary key can reject
    the row. *)
Definition CreateEvent (e : Event) (s : Store) : result Store :=
  if has_event (EventID e) s then Err "UNIQUE constraint failed: events.id"
  else Ok (mkStore (memories s) (events s ++ [mkEventRow e None])).

(** [MarkEventProcessed]: [UPDATE events SET processed_at = ? WHERE id = ?].
    The statement meets no constraint, so that it returns no error. *)
Definition MarkEventProcessed (now : Time) (eventID : string) (s : Store) : Store :=
  mkStore
    (memories s)
    (map (fun r => if String.eqb (EventID (row_event r)) eventID
                   then mkEventRow (row_event r) (Some now) else r)
         (events s)).

(** ** The extraction gateway (package [extractor]) *)

Record ExtractedMemory : Type := mkExtractedMemory {
  ExtType : string;
  ExtContent : string;
  ExtSummary : string;
  ExtConfidence : Q;
  ExtTopics : list string
}.

(** What [Extract] observes of the exchange with the model: the outcome of
    [client.Post], the status code, the decoding of the HTTP body, and the
    decoding of the field [response] into a list of candidates. *)
Inductive Reply : Type :=
| PostFailed (err : string)
| StatusNotOK (body : string)
| BodyNotDecoded (err : string)
| ResponseNotParsed (err : string)
| ResponseMemories (candidates : list ExtractedMemory).

Class Extractor (X : Type) : Type :=
  Extract : X -> list Event -> result (list ExtractedMemory).

(** The HTTP client of the extractor answers the request built from the
    formatted events. *)
Record OllamaExtractor : Type := mkOllamaExtractor {
  ext_endpoint : string;
  ext_model : string;
  ext_client : list Event -> Reply
}.

(** [// Filter by confidence]: [m.Confidence >= 0.6] *)
Definition accepted (m : ExtractedMemory) : bool := Qle_bool 0.6 (ExtConfidence m).

#[export] Instance OllamaExtractor_Extract : Extractor OllamaExtractor :=
  fun e events =>
    match events with
    | [] => Ok []
    | _ =>
        match ext_client e events with
        | PostFailed err => Err ("ollama request failed: " ++ err)%string
        | StatusNotOK body => Err ("ollama error: " ++ body)%string
        | BodyNotDecoded err => Err ("failed to decode response: " ++ err)%string
        | ResponseNotParsed err => Err ("failed to parse LLM response: " ++ err)%string
        | ResponseMemories candidates => Ok (filter accepted candidates)
        end
    end.

Inductive NullExtractor : Type := mkNullExtractor.

#[export] Instance NullExtractor_Extract : Extractor NullExtractor :=
  fun _ _ => Ok [].

(** ** The embedding gateway (package [embedding]) *)

Class Embedder (X : Type) : Type :=
  Embed : X -> string -> result (option (list Q)).

(** The HTTP client of the embedder: an error, or the vector decoded. *)
Record OllamaEmbedder : Type := mkOllamaEmbedder {
  emb_endpoint : string;
  emb_model : string;
  emb_client : string -> result (list Q)
}.

#[export] Instance OllamaEmbedder_Embed : Embedder OllamaEmbedder :=
  fun e text =>
    match emb_client e text with
    | Err err => Err err
    | Ok v => Ok (Some v)
    end.

Inductive NullEmbedder : Type := mkNullEmbedder.

#[export] Instance NullEmbedder_Embed : Embedder NullEmbedder :=
  fun _ _ => Ok None.

(** ** The agent (package [agent]) *)

Record Config : Type := mkConfig {
  DataDir : string;
  GitInterval : Z;
  FileDebounce : Z;
  BatchSize : Z;
  BatchWait : Z;
  ExtractionModel : string
}.

(** Durations in nanoseconds, as [time.Duration]. *)
Definition DefaultConfig : Config :=
  mkConfig EmptyString (30 * 1000000000) (500 * 1000000) 10 (5 * 1000000000)
           "llama3.2".

(** The capacity of [eventQueue]: [make(chan models.Event, 10000)]. *)
Definition eventQueueCapacity : Z := 10000.

(** The lines that the agent and the watchers write with [log.Printf]. *)
Inductive LogLine : Type :=
| LogProcessingBatch (n : nat)
| LogExtractionFailed (err : string)
| LogExtracted (n : nat)
| LogSaveFailed (err : string)
| LogEmbeddingFailed (err : string)
| LogCreatedMemory (type summary : string)
| LogBatchProcessed
| LogStoreEventFailed (err : string)
| LogGitEvent (repo message : string)
| LogFileEvent (name : string)
| LogTerminalEvent (cmd : string)
| LogQueueFull (producer : string).

(** What a run of the agent reads from its environment: the [i]-th reading
    of the clock and the [i]-th identifier that [ulid.Make] returns. *)
Record Env : Type := mkEnv {
  env_clock : nat -> Time;
  env_ulid : nat -> string
}.

(** The loop [for _, e := range events { MarkEventProcessed(e.ID) }]; the
    [i]-th reading of the clock is the first one of the loop. *)
Fixpoint mark_processed (clock : nat -> Time) (i : nat) (batch : list Event)
    (s : Store) : Store :=
  match batch with
  | [] => s
  | e :: rest =>
      mark_processed clock (S i) rest (MarkEventProcessed (clock i) (EventID e) s)
  end.

(** The memory that [processBatch] builds from a candidate. *)
Definition memory_of_extracted (id : string) (now : Time) (ext : ExtractedMemory)
    : Memory :=
  mkMemory id (ExtType ext) (ExtContent ext) (ExtSummary ext)
    MemoryScopePersonal None None
    (mkSource SourceTypeGit "batch" now)
    (ExtConfidence ext) 1.0 (ExtTopics ext) [] None now now 0 None.

(** The loop [for _, ext := range extracted]: iteration [i] reads the clock
    and the identifier generator once each. *)
Fixpoint create_memories {B : Type} `{Embedder B} (embedder : B) (env : Env)
    (i : nat) (extracted : list ExtractedMemory) (s : Store)
    : Store * list LogLine :=
  match extracted with
  | [] => (s, [])
  | ext :: rest =>
      let memory := memory_of_extracted (env_ulid env i) (env_clock env i) ext in
      match CreateMemory memory s with
      | Err err =>
          let (s', lg) := create_memories embedder env (S i) rest s in
          (s', LogSaveFailed err :: lg)
      | Ok s1 =>
          let (s2, lg_emb) :=
            match Embed embedder (Content memory) with
            | Err err => (s1, [LogEmbeddingFailed err])
            | Ok None => (s1, [])
            | Ok (Some v) => (UpdateMemoryEmbedding (ID memory) v s1, [])
            end in
          let (s', lg) := create_memories embedder env (S i) rest s2 in
          (s', lg_emb ++ LogCreatedMemory (Type_ memory) (Summary memory) :: lg)
      end
  end.

(** [processBatch]: one call of the extractor; on an error the events are
    marked and the function returns, otherwise the candidates are stored
    and the events are marked. It returns no error to its caller. *)
Definition processBatch {X B : Type} `{Extractor X} `{Embedder B}
    (extractor : X) (embedder : B) (env : Env) (batch : list Event) (s : Store)
    : Store * list LogLine :=
  match Extract extractor batch with
  | Err err =>
      (mark_processed (env_clock env) 0 batch s,
       [LogProcessingBatch (List.length batch); LogExtractionFailed err])
  | Ok extracted =>
      let (s1, lg) := create_memories embedder env 0 extracted s in
      (mark_processed (env_clock env) (List.length extracted) batch s1,
       LogProcessingBatch (List.length batch) :: LogExtracted (List.length extracted)
         :: lg ++ [LogBatchProcessed])
  end.

(** What the [select] of [processEvents] receives in one iteration, with the
    environment that the iteration reads. *)
Inductive Msg : Type :=
| CtxDone (env : Env)
| Recv (event : Event) (env : Env)
| TimerFired (env : Env).

(** The calls that the loop makes, in order. *)
Inductive Effect : Type :=
| CallProcessBatch (batch : list Event)
| TimerReset.

Record Dispatcher : Type := mkDispatcher {
  disp_store : Store;
  disp_batch : list Event;
  disp_effects : list Effect;
  disp_log : list LogLine;
  disp_returned : bool
}.

(** The state in which [processEvents] enters its loop. *)
Definition dispatcher_start (s : Store) : Dispatcher :=
  mkDispatcher s [] [] [] false.

(** One iteration of the loop of [processEvents]. *)
Definition processEvents_step {X B : Type} `{Extractor X} `{Embedder B}
    (cfg : Config) (extractor : X) (embedder : B)
    (d : Dispatcher) (msg : Msg) : Dispatcher :=
  if disp_returned d then d
  else
    match msg with
    | CtxDone env =>
        match disp_batch d with
        | [] =>
            mkDispatcher (disp_store d) [] (disp_effects d) (disp_log d) true
        | batch =>
            let (s', lg) := processBatch extractor embedder env batch (disp_store d) in
            mkDispatcher s' batch (disp_effects d ++ [CallProcessBatch batch])
                         (disp_log d ++ lg) true
        end
    | Recv event env =>
        match CreateEvent event (disp_store d) with
        | Err err =>
            mkDispatcher (disp_store d) (disp_batch d) (disp_effects d)
                         (disp_log d ++ [LogStoreEventFailed err]) false
        | Ok s1 =>
            let batch := disp_batch d ++ [event] in
            if BatchSize cfg <=? Z.of_nat (List.length batch) then
              let (s', lg) := processBatch extractor embedder env batch s1 in
              mkDispatcher s' []
                           (disp_effects d ++ [CallProcessBatch batch; TimerReset])
                           (disp_log d ++ lg) false
            else
              mkDispatcher s1 batch (disp_effects d) (disp_log d) false
        end
    | TimerFired env =>
        match disp_batch d with
        | [] =>
            mkDispatcher (disp_store d) [] (disp_effects d ++ [TimerReset])
                         (disp_log d) false
        | batch =>
            let (s', lg) := processBatch extractor embedder env batch (disp_store d) in
            mkDispatcher s' []
                         (disp_effects d ++ [CallProcessBatch batch; TimerReset])
                         (disp_log d ++ lg) false
        end
    end.

(** [processEvents] on the sequence of what its [select] receives. *)
Definition processEvents {X B : Type} `{Extractor X} `{Embedder B}
    (cfg : Config) (extractor : X) (embedder : B)
    (d : Dispatcher) (msgs : list Msg) : Dispatcher :=
  fold_left (processEvents_step cfg extractor embedder) msgs d.

(** One tick of [decayLoop]. *)
Definition decayLoop_tick (now : Time) (s : Store) : Store :=
  DecayImportance now s.

(** ** The event queue and the watchers (package [watcher]) *)

(** A buffered channel of events: its capacity and the events it holds,
    oldest first. *)
Record Chan : Type := mkChan {
  chan_cap : Z;
  chan_buf : list Event
}.

(** [make(chan models.Event, 10000)] in [agent.New]. *)
Definition eventQueue : Chan := mkChan eventQueueCapacity [].

(** [select { case sink <- event: default: }]: the send proceeds when the
    buffer has room; otherwise the [default] branch runs at once. [None]
    stands for the [default] branch. *)
Definition try_send (event : Event) (q : Chan) : option Chan :=
  if Z.of_nat (List.length (chan_buf q)) <? chan_cap q
  then Some (mkChan (chan_cap q) (chan_buf q ++ [event]))
  else None.

(** [event := <-a.eventQueue] when the buffer holds an event. *)
Definition chan_recv (q : Chan) : option (Event * Chan) :=
  match chan_buf q with
  | [] => None
  | e :: rest => Some (e, mkChan (chan_cap q) rest)
  end.

(** The end of the three producers: the line logged before the send, then
    the [select]. *)
Definition send_or_drop (producer : string) (event : Event) (q : Chan)
    : Chan * list LogLine :=
  match try_send event q with
  | Some q' => (q', [])
  | None => (q, [LogQueueFull producer])
  end.

(** [filepath.Base] and [filepath.Ext], functions of the Go library. *)
Record Filepath : Type := mkFilepath {
  Base : string -> string;
  Ext : string -> string
}.

(** [lastCommit map[string]string] *)
Fixpoint map_get (k : string) (m : list (string * string)) : option string :=
  match m with
  | [] => None
  | (k', v) :: m' => if String.eqb k' k then Some v else map_get k m'
  end.

Definition map_set (k v : string) (m : list (string * string))
    : list (string * string) :=
  (k, v) :: filter (fun kv => negb (String.eqb (fst kv) k)) m.

Record GitWatcher : Type := mkGitWatcher {
  lastCommit : list (string * string)
}.

(** What [checkRepo] reads from the three [git] commands: the fields of the
    last commit split at [|] ([None] when the command fails), the diff
    statistics and the names of the files changed. *)
Record GitOutput : Type := mkGitOutput {
  git_log_parts : option (list string);
  git_diff_stat : string;
  git_diff_names : list string
}.

Definition checkRepo (fp : Filepath) (repoPath : string) (git : GitOutput)
    (id : string) (now : Time) (w : GitWatcher) (q : Chan)
    : GitWatcher * Chan * list LogLine :=
  match git_log_parts git with
  | None => (w, q, [])
  | Some parts =>
      if (List.length parts <? 5)%nat then (w, q, [])
      else
        let hash := nth 0 parts EmptyString in
        let message := nth 1 parts EmptyString in
        let author := nth 2 parts EmptyString in
        let seen := map_get repoPath (lastCommit w) in
        match seen with
        | Some lastHash =>
            if String.eqb lastHash hash then (w, q, [])
            else
              let w' := mkGitWatcher (map_set repoPath hash (lastCommit w)) in
              let event :=
                mkEvent id "git_commit" now
                  [("repo", VString repoPath); ("hash", VString hash);
                   ("message", VString message); ("author", VString author);
                   ("diff", VString (git_diff_stat git));
                   ("files", VStrings (git_diff_names git))]
                  None in
              let (q', lg) := send_or_drop "git" event q in
              (w', q', LogGitEvent (Base fp repoPath) message :: lg)
        | None =>
            (mkGitWatcher (map_set repoPath hash (lastCommit w)), q, [])
        end
  end.

(** What [FileWatcher.emitEvent] reads from the file system: the size that
    [os.Stat] reports ([None] on an error) and the result of [os.ReadFile]. *)
Record FileRead : Type := mkFileRead {
  stat_size : option Z;
  read_file : option string
}.

Definition FileWatcher_emitEvent (fp : Filepath) (path : string) (fs : FileRead)
    (id : string) (now : Time) (q : Chan) : Chan * list LogLine :=
  match stat_size fs with
  | None => (q, [])
  | Some size =>
      let content :=
        if size <? 10000 then
          match read_file fs with
          | Some data => data
          | None => EmptyString
          end
        else EmptyString in
      let event :=
        mkEvent id "file_change" now
          [("path", VString path); ("filename", VString (Base fp path));
           ("ext", VString (Ext fp path)); ("size", VInt size);
           ("content", VString content)]
          None in
      let (q', lg) := send_or_drop "file" event q in
      (q', LogFileEvent (Base fp path) :: lg)
  end.

(** [truncate]: [s[:maxLen-3] + "..."] when [s] is longer than [maxLen]. *)
Definition truncate (s : string) (maxLen : nat) : string :=
  if (String.length s <=? maxLen)%nat then s
  else (substring 0 (maxLen - 3) s ++ "...")%string.

Definition TerminalWatcher_emitEvent (cmd : string) (id : string) (now : Time)
    (q : Chan) : Chan * list LogLine :=
  let event := mkEvent id "terminal_cmd" now [("command", VString cmd)] None in
  let (q', lg) := send_or_drop "terminal" event q in
  (q', LogTerminalEvent (truncate cmd 50) :: lg).

(** ** The remember surfaces *)

(** [strings.Join(args, " ")] *)
Fixpoint join_args (args : list string) : string :=
  match args with
  | [] => EmptyString
  | [a] => a
  | a :: rest => (a ++ " " ++ join_args rest)%string
  end.

(** What a command leaves behind: the store, the lines printed and the
    error that [RunE] returns. *)
Record CmdResult : Type := mkCmdResult {
  cmd_store : Store;
  cmd_stdout : list string;
  cmd_error : option string
}.

(** The memory that [rememberCmd] builds. *)
Definition manual_memory (id memoryType content : string) (topics : list string)
    (now : Time) : Memory :=
  mkMemory id memoryType content (truncate content 100)
    MemoryScopePersonal None None
    (mkSource SourceTypeManual "cli" now)
    1.0 1.0 topics [] None now now 0 None.

(** [rememberCmd] of [cmd/remember.go]: [db_exists] is the outcome of
    [os.Stat] on the database file, [memoryType] and [topics] the values of
    the flags [--type] (default [fact]) and [--topics]. *)
Definition rememberCmd (args : list string) (memoryType : string)
    (topics : list string) (db_exists : bool) (id : string) (now : Time)
    (s : Store) : CmdResult :=
  match args with
  | [] => mkCmdResult s [] (Some "requires at least 1 arg(s), only received 0")
  | _ =>
      let content := join_args args in
      if negb db_exists then
        mkCmdResult s
          ["MemoryPilot not initialized"; "   Run 'memorypilot init' to get started"]
          None
      else
        let memory := manual_memory id memoryType content topics now in
        match CreateMemory memory s with
        | Err err => mkCmdResult s [] (Some ("failed to save memory: " ++ err)%string)
        | Ok s' =>
            mkCmdResult s'
              [("Memory created: " ++ ID memory)%string;
               ("   Type: " ++ Type_ memory)%string;
               ("   " ++ Content memory)%string]
              None
        end
  end.

(** The JSON-RPC answers of the MCP server: [sendResult] with one text
    item, or [sendError]. *)
Inductive Response : Type :=
| ResultText (req_id : string) (text : string)
| ResponseError (req_id : string) (code : Z) (message : string).

(** [handleRemember] of [internal/mcp/server.go]: the arguments decoded, the
    default type, the text of the answer. Its body holds the comment
    [// TODO: Create memory] where the memory would be created. *)
Definition handleRemember (req_id : string) (content type : string) (s : Store)
    : Store * Response :=
  let type := match type with EmptyString => "fact" | _ => type end in
  let text := ("Remembered: " ++ content ++ " (type: " ++ type ++ ")")%string in
  (s, ResultText req_id text).

(** ** Stores that the program can reach *)

(** The states of the database that the statements issued by the program
    can produce, from the empty tables that [migrate] creates, in any
    interleaving of the statements: the two [INSERT]s of memories (the
    memory of [rememberCmd], and the memory that [processBatch] builds from
    a candidate that [Extract] kept), and the [UPDATE]s. [G] is what is
    known of the candidates that the model returns. *)
Inductive reachable (G : ExtractedMemory -> Prop) : Store -> Prop :=
| reach_new : reachable G emptyStore
| reach_remember s s' id memoryType content topics now :
    reachable G s ->
    CreateMemory (manual_memory id memoryType content topics now) s = Ok s' ->
    reachable G s'
| reach_extracted s s' id now ext :
    reachable G s ->
    G ext ->
    accepted ext = true ->
    CreateMemory (memory_of_extracted id now ext) s = Ok s' ->
    reachable G s'
| reach_embedding s id v :
    reachable G s -> reachable G (UpdateMemoryEmbedding id v s)
| reach_access s now id :
    reachable G s -> reachable G (recordAccess now id s)
| reach_decay s now :
    reachable G s -> reachable G (DecayImportance now s)
| reach_event s s' e :
    reachable G s -> CreateEvent e s = Ok s' -> reachable G s'
| reach_mark s now id :
    reachable G s -> reachable G (MarkEventProcessed now id s).

(** No assumption on the model. *)
Definition any_candidate : ExtractedMemory -> Prop := fun _ => True.

(** The model keeps to the range of confidence that the prompt asks for. *)
Definition confidence_at_most_one : ExtractedMemory -> Prop :=
  fun ext => (ExtConfidence ext <= 1)%Q.

(** The replies of an extractor all satisfy [G]. *)
Definition replies_satisfy (G : ExtractedMemory -> Prop) (x : OllamaExtractor)
    : Prop :=
  forall events candidates ext,
    ext_client x events = ResponseMemories candidates ->
    In ext candidates -> G ext.

(** ** Notions of the statements *)

Definition unit_interval (q : Q) : Prop := (0 <= q)%Q /\ (q <= 1)%Q.

(** The order of [ORDER BY importance DESC, last_accessed_at DESC]. *)
Definition ranked (a b : Memory) : Prop :=
  (Importance b < Importance a)%Q
  \/ ((Importance b == Importance a)%Q /\ LastAccessedAt b <= LastAccessedAt a).

(** [q] is a substring of [text]. *)
Definition substring_of (q text : string) : Prop :=
  exists pre post, text = (pre ++ q ++ post)%string.



(** Decision of [substring_of], for evaluation. *)
Fixpoint starts_with (q text : string) : bool :=
  match q with
  | EmptyString => true
  | String c q' =>
      match text with
      | EmptyString => false
      | String d text' => Ascii.eqb c d && starts_with q' text'
      end
  end.

Fixpoint contains (q text : string) : bool :=
  starts_with q text
  || match text with
     | EmptyString => false
     | String _ text' => contains q text'
     end.


(** The fields that [recordAccess] leaves alone. *)
Definition same_but_access (m m' : Memory) : Prop :=
  ID m' = ID m /\ Type_ m' = Type_ m /\ Content m' = Content m
  /\ Summary m' = Summary m /\ Scope m' = Scope m
  /\ ProjectID m' = ProjectID m /\ TeamID m' = TeamID m
  /\ Source_ m' = Source_ m /\ Confidence m' = Confidence m
  /\ Topics m' = Topics m /\ RelatedMemories m' = RelatedMemories m
  /\ Embedding m' = Embedding m /\ CreatedAt m' = CreatedAt m
  /\ ExpiresAt m' = ExpiresAt m.

(** The rows of [events] that hold event [e] are marked processed. *)
Definition marked_processed (e : Event) (s : Store) : Prop :=
  exists row t,
    In row (events s) /\ row_event row = e /\ processed_at row = Some t.


(** The position of the first row of [rows] with identifier [id]. *)
Fixpoint index_of (id : string) (rows : list Memory) : option nat :=
  match rows with
  | [] => None
  | r :: rest =>
      if String.eqb (ID r) id then Some 0%nat
      else option_map S (index_of id rest)
  end.

(** What the loop of [MarkEventProcessed] over [batch] does to one row of
    [events]. *)
Fixpoint mark_row (clock : nat -> Time) (i : nat) (batch : list Event)
    (r : EventRow) : EventRow :=
  match batch with
  | [] => r
  | e :: rest =>
      mark_row clock (S i) rest
        (if String.eqb (EventID (row_event r)) (EventID e)
         then mkEventRow (row_event r) (Some (clock i)) else r)
  end.

(** Every event of [batch] has a row in table [events]. *)
Definition stored (batch : list Event) (s : Store) : Prop :=
  forall e, In e batch -> exists row, In row (events s) /\ row_event row = e.



(** * The rest of the code *)

(** ** More of the store: projects, statistics, unprocessed events *)

(** Modelled from the spec: [models.Project] belongs to package
    [pkg/models], which is not part of the sources at hand; its fields are
    the columns that [CreateProject] writes and [GetProjectByPath] reads. *)
Record Project : Type := mkProject {
  ProjID : string;
  ProjName : string;
  ProjPath : string;
  GitRemote : option string;
  ProjCreatedAt : Time;
  ProjLastSeen : Time
}.

(** A row of [projects] stands in the way of [p] when it has the primary
    key [id] or the [UNIQUE] column [path] of [p]. *)
Definition conflicts (p r : Project) : bool :=
  String.eqb (ProjID r) (ProjID p) || String.eqb (ProjPath r) (ProjPath p).

(** [CreateProject]: [INSERT OR REPLACE INTO projects]. The rows that
    stand in the way are deleted, then the row is inserted. *)
Definition CreateProject (p : Project) (projects : list Project) : list Project :=
  filter (fun r => negb (conflicts p r)) projects ++ [p].

(** [GetProjectByPath]: [SELECT ... WHERE path = ?], the first row;
    [None] stands for the result [nil, nil] of [sql.ErrNoRows]. *)
Definition GetProjectByPath (path : string) (projects : list Project)
    : option Project :=
  find (fun r => String.eqb (ProjPath r) path) projects.

Record Stats : Type := mkStats {
  TotalMemories : Z;
  ByType : list (string * Z);
  ProjectCount : Z;
  DaemonRunning : bool
}.

(** [SELECT type, COUNT( * ) FROM memories GROUP BY type]: one row for each
    type that occurs, with the number of its rows. *)
Definition count_by_type (l : list Memory) : list (string * Z) :=
  map (fun t => (t, Z.of_nat (count_occ string_dec (map Type_ l) t)))
      (nodup string_dec (map Type_ l)).

(** [GetStats]: the three queries; [DaemonRunning] is not assigned. *)
Definition GetStats (s : Store) (projects : list Project) : Stats :=
  mkStats (Z.of_nat (List.length (memories s)))
          (count_by_type (memories s))
          (Z.of_nat (List.length projects))
          false.

(** [stats.ByType[t]]: the value of a Go map at a key, which is 0 at a key
    that the map does not hold. *)
Fixpoint by_type (m : list (string * Z)) (t : string) : Z :=
  match m with
  | [] => 0
  | (k, n) :: m' => if String.eqb k t then n else by_type m' t
  end.

(** [ORDER BY timestamp ASC] *)
Fixpoint insert_by_time (r : EventRow) (l : list EventRow) : list EventRow :=
  match l with
  | [] => [r]
  | x :: l' =>
      if EventTimestamp (row_event r) <=? EventTimestamp (row_event x)
      then r :: l else x :: insert_by_time r l'
  end.

Definition order_by_time (l : list EventRow) : list EventRow :=
  fold_right insert_by_time [] l.

Definition unprocessed (r : EventRow) : bool :=
  match processed_at r with
  | None => true
  | Some _ => false
  end.

(** [LIMIT ?] of SQLite: a negative limit is no limit. *)
Definition sql_limit {A : Type} (limit : Z) (l : list A) : list A :=
  if limit <? 0 then l else firstn (Z.to_nat limit) l.

(** The event as [rows.Scan] and [json.Unmarshal] rebuild it: [reload] is
    what the payload becomes on its way through [json.Marshal] and
    [json.Unmarshal]. *)
Definition scan_event (reload : list (string * Value) -> list (string * Value))
    (r : EventRow) : Event :=
  mkEvent (EventID (row_event r)) (EventType (row_event r))
          (EventTimestamp (row_event r)) (reload (Data (row_event r)))
          (EventProjectID (row_event r)).

(** [GetUnprocessedEvents]:
    [WHERE processed_at IS NULL ORDER BY timestamp ASC LIMIT ?]. *)
Definition GetUnprocessedEvents
    (reload : list (string * Value) -> list (string * Value))
    (limit : Z) (s : Store) : list Event :=
  map (scan_event reload)
      (sql_limit limit (order_by_time (filter unprocessed (events s)))).

(** The two keys of table [projects] are keys: no two rows share an [id],
    no two rows share a [path]. *)
Definition projects_ok (projects : list Project) : Prop :=
  NoDup (map ProjID projects) /\ NoDup (map ProjPath projects).

(** The sum of [f] over [l]. *)
Definition sumZ {A : Type} (f : A -> Z) (l : list A) : Z :=
  fold_right (fun a acc => f a + acc) 0 l.

(** ** Notions for the dispatcher *)

(** The events that the loop handed to [processBatch], in order. *)
Definition flushed (effects : list Effect) : list Event :=
  flat_map (fun eff => match eff with
                       | CallProcessBatch batch => batch
                       | TimerReset => []
                       end)
           effects.

(** The events that wait in the batch of a loop that has not returned. *)
Definition waiting (d : Dispatcher) : list Event :=
  if disp_returned d then [] else disp_batch d.

(** The row that [CreateEvent] writes for an event. *)
Definition fresh_row (e : Event) : EventRow := mkEventRow e None.

(** Every row is marked processed. *)
Definition all_processed (rows : list EventRow) : Prop :=
  Forall (fun r => processed_at r <> None) rows.

(** A call of [processBatch] with between 1 and [size] events; a reset of
    the timer. *)
Definition well_sized (size : Z) (eff : Effect) : Prop :=
  match eff with
  | CallProcessBatch batch =>
      1 <= Z.of_nat (List.length batch) <= size
  | TimerReset => True
  end.

(** ** Notions for recall and decay *)

(** Successive runs of the decay task, at the times of the list. *)
Definition decays (times : list Time) (s : Store) : Store :=
  fold_left (fun st t => decayLoop_tick t st) times s.

(** The request of a recall by keyword alone, as [handleRecall] builds it. *)
Definition keyword_request (query : string) (limit : Z) : RecallRequest :=
  mkRecallRequest query [] [] None limit.

(** What one run of [DecayImportance] does to a row. *)
Definition decay_row (now : Time) (m : Memory) : Memory :=
  if decay_selects now m then decay_update m else m.

(** [0.99 ^ k] *)
Fixpoint decay_factor (k : nat) : Q :=
  match k with
  | O => 1
  | S k' => decay_factor k' * 0.99
  end.

(** ** The terminal watcher *)

(** [strings.Fields] and [strings.TrimSpace], functions of the Go library. *)
Record Strings : Type := mkStrings {
  Fields : string -> list string;
  TrimSpace : string -> string
}.

Definition sensitiveStarts : list string :=
  ["export "; "set "; "unset "; "curl "; "wget "; "mysql "; "psql ";
   "redis-cli "; "ssh "; "scp "; "echo $"; "cat ~/."].

Definition noiseCommands : list string :=
  ["ls"; "cd"; "pwd"; "clear"; "exit"; "history"; "which"; "whoami"; "date"].

Definition interestingStarts : list string :=
  ["git "; "npm "; "yarn "; "pnpm "; "go "; "cargo "; "python "; "pip ";
   "docker "; "kubectl "; "terraform "; "make "; "brew "].

(** [strings.HasPrefix(cmd, prefix)] for some prefix of the list. *)
Definition has_prefix_in (prefixes : list string) (cmd : string) : bool :=
  existsb (fun prefix => starts_with prefix cmd) prefixes.

(** [parts := strings.Fields(cmd)]; the first field is one of the noise
    commands. *)
Definition base_is_noise (lib : Strings) (cmd : string) : bool :=
  match Fields lib cmd with
  | [] => false
  | base :: _ => str_in base noiseCommands
  end.

(** [TerminalWatcher.isInteresting] *)
Definition TerminalWatcher_isInteresting (lib : Strings) (cmd : string) : bool :=
  if (String.length cmd <? 3)%nat then false
  else if has_prefix_in sensitiveStarts cmd then false
  else if base_is_noise lib cmd then false
  else has_prefix_in interestingStarts cmd.

(** [strings.SplitN(s, sep, 2)] when it returns two parts: the text before
    and the text after the first [sep]. *)
Fixpoint split_first (sep : ascii) (s : string) : option (string * string) :=
  match s with
  | EmptyString => None
  | String c s' =>
      if Ascii.eqb c sep then Some (EmptyString, s')
      else
        match split_first sep s' with
        | Some (before, after) => Some (String c before, after)
        | None => None
        end
  end.

(** [TerminalWatcher.parseHistoryLine] *)
Definition parseHistoryLine (lib : Strings) (line historyFile : string) : string :=
  if contains "zsh" historyFile && starts_with ":" line then
    match split_first ";" line with
    | Some (_, cmd) => TrimSpace lib cmd
    | None => TrimSpace lib line
    end
  else TrimSpace lib line.

(** What [checkHistory] reads of a history file: the size that [os.Stat]
    reports ([None] on an error), and the lines that the scanner reads
    after [file.Seek] to a position ([None] when [os.Open] fails). *)
Record HistoryRead : Type := mkHistoryRead {
  hist_size : option Z;
  hist_lines : Z -> option (list string)
}.

(** [lastPositions map[string]int64]: the value at a key that the map does
    not hold is 0. *)
Fixpoint pos_get (path : string) (positions : list (string * Z)) : Z :=
  match positions with
  | [] => 0
  | (p, n) :: rest => if String.eqb p path then n else pos_get path rest
  end.

Definition pos_set (path : string) (n : Z) (positions : list (string * Z))
    : list (string * Z) :=
  (path, n) :: filter (fun pn => negb (String.eqb (fst pn) path)) positions.

(** [TerminalWatcher.Start]: the position of each history file that
    [os.Stat] finds is its size. *)
Fixpoint TerminalWatcher_Start (fs : string -> HistoryRead)
    (historyFiles : list string) (positions : list (string * Z))
    : list (string * Z) :=
  match historyFiles with
  | [] => positions
  | path :: rest =>
      TerminalWatcher_Start fs rest
        (match hist_size (fs path) with
         | Some size => pos_set path size positions
         | None => positions
         end)
  end.

(** The loop [for scanner.Scan()] of [checkHistory]: [i] counts the events
    emitted, each of which reads the clock and the identifier generator. *)
Fixpoint scan_lines (lib : Strings) (path : string) (env : Env) (i : nat)
    (lines : list string) (q : Chan) : nat * Chan * list LogLine :=
  match lines with
  | [] => (i, q, [])
  | line :: rest =>
      let cmd := parseHistoryLine lib line path in
      if negb (String.eqb cmd EmptyString) && TerminalWatcher_isInteresting lib cmd
      then
        let (q1, lg1) :=
          TerminalWatcher_emitEvent cmd (env_ulid env i) (env_clock env i) q in
        let '(i', q', lg) := scan_lines lib path env (S i) rest q1 in
        (i', q', lg1 ++ lg)
      else scan_lines lib path env i rest q
  end.

(** [TerminalWatcher.checkHistory] *)
Fixpoint checkHistory (lib : Strings) (fs : string -> HistoryRead) (env : Env)
    (i : nat) (historyFiles : list string) (positions : list (string * Z))
    (q : Chan) : list (string * Z) * Chan * list LogLine :=
  match historyFiles with
  | [] => (positions, q, [])
  | path :: rest =>
      match hist_size (fs path) with
      | None => checkHistory lib fs env i rest positions q
      | Some currentSize =>
          let lastPos := pos_get path positions in
          if currentSize <=? lastPos then checkHistory lib fs env i rest positions q
          else
            match hist_lines (fs path) lastPos with
            | None => checkHistory lib fs env i rest positions q
            | Some lines =>
                let '(i', q1, lg1) := scan_lines lib path env i lines q in
                let '(positions', q', lg) :=
                  checkHistory lib fs env i' rest
                    (pos_set path currentSize positions) q1 in
                (positions', q', lg1 ++ lg)
            end
      end
  end.

(** One prefix is a prefix of the other. *)
Definition compatible (p p' : string) : bool :=
  starts_with p p' || starts_with p' p.

(** The command of a [terminal_cmd] event. *)
Definition command_of (e : Event) : option string :=
  match Data e with
  | [(key, VString cmd)] => if String.eqb key "command" then Some cmd else None
  | _ => None
  end.


(** A history file with nothing to read: [os.Stat] fails, the file has not
    grown past the last position, or [os.Open] fails. *)
Definition quiet (fs : string -> HistoryRead) (positions : list (string * Z))
    (path : string) : Prop :=
  match hist_size (fs path) with
  | None => True
  | Some currentSize =>
      currentSize <= pos_get path positions
      \/ hist_lines (fs path) (pos_get path positions) = None
  end.
(** ** Concrete inputs *)

(** The inputs at which the properties below are evaluated. *)

Definition ex_env : Env :=
  mkEnv (fun i => 1700000000 + Z.of_nat i)
        (fun i => String (ascii_of_nat (65 + i)) "-01J9ZK3V8Q").

Definition ex_event : Event :=
  mkEvent "01J9ZK3V8QEVENT" "git_commit" 1699999990
    [("repo", VString "/home/dev/app"); ("message", VString "switch to WAL mode")]
    None.

(** A store with one memory, created by [memorypilot remember]. *)
Definition ex_remembered_store : Store :=
  cmd_store (rememberCmd ["Use"; "PKCE"; "for"; "mobile"; "auth"] "decision" []
               true "01J9ZK3V8QMEM" 1700000000 emptyStore).

Definition ex_remembered : Memory :=
  manual_memory "01J9ZK3V8QMEM" "decision" "Use PKCE for mobile auth" []
    1700000000.

(** A model that answers with a confidence of 2. *)
Definition overconfident : ExtractedMemory :=
  mkExtractedMemory "decision" "Use WAL mode for SQLite" "WAL mode" 2 ["sqlite"].

Definition overconfident_extractor : OllamaExtractor :=
  mkOllamaExtractor "http://localhost:11434" "llama3.2"
    (fun _ => ResponseMemories [overconfident]).

Definition overconfident_store : Store :=
  fst (processBatch overconfident_extractor mkNullEmbedder ex_env [ex_event]
         emptyStore).

(** The store of [ex_remembered_store] after 230 daily runs of the decay
    task, none of them within a day of the last access. *)
Definition ex_stale_store : Store :=
  Nat.iter 230 (DecayImportance 1800000000) ex_remembered_store.

(** A serialisation of topic lists, in the manner of [json.Marshal] on
    topics that need no escaping. *)
Definition quote : string := String (ascii_of_nat 34) EmptyString.

Definition ex_marshal (topics : list string) : string :=
  ("[" ++ String.concat "," (map (fun t => quote ++ t ++ quote) topics) ++ "]")%string.


(** [recall "PKCE"] with the default limit. *)
Definition ex_pkce_request : RecallRequest :=
  mkRecallRequest "PKCE" [] [] None 0.

(** A model that cannot be reached. *)
Definition unreachable_extractor : OllamaExtractor :=
  mkOllamaExtractor "http://localhost:11434" "llama3.2"
    (fun _ => PostFailed "dial tcp 127.0.0.1:11434: connection refused").

(** The store after the dispatcher stored [ex_event]. *)
Definition ex_event_store : Store :=
  mkStore [] [mkEventRow ex_event None].



(** A model that answers with one candidate above and one below 0.6. *)
Definition kept_candidate : ExtractedMemory :=
  mkExtractedMemory "decision" "Use WAL mode for SQLite" "WAL mode" 0.85 ["sqlite"].

Definition dropped_candidate : ExtractedMemory :=
  mkExtractedMemory "fact" "Ran the tests" "tests" 0.3 [].

Definition ex_extractor : OllamaExtractor :=
  mkOllamaExtractor "http://localhost:11434" "llama3.2"
    (fun _ => ResponseMemories [dropped_candidate; kept_candidate]).

(** The event queue holding 10,000 events. *)
Definition full_queue : Chan :=
  mkChan eventQueueCapacity (repeat ex_event (Z.to_nat eventQueueCapacity)).

(** Ten events with distinct identifiers, received one after the other. *)
Definition ex_events : list Event :=
  map (fun i =>
         mkEvent (String (ascii_of_nat (97 + i)) "-01J9ZK3V8QEVT") "terminal_cmd"
                 (1700000000 + Z.of_nat i) [("command", VString "go test ./...")]
                 None)
      (seq 0 10).

Definition ex_msgs : list Msg := map (fun e => Recv e ex_env) ex_events.

(** The two memories of the scenario of the spec: A of importance 0.9 and
    type decision, B of importance 0.95 and type fact. *)
Definition ex_A : Memory :=
  set_importance 0.9
    (manual_memory "01J9ZK3V8QAAA" "decision" "Chose PostgreSQL for ACID compliance"
       [] 1700000000).

Definition ex_B : Memory :=
  set_importance 0.95
    (manual_memory "01J9ZK3V8QBBB" "fact" "The API listens on port 7832"
       [] 1700000050).

Definition ex_AB_store : Store := mkStore [ex_A; ex_B] [].

Definition ex_all_request : RecallRequest := mkRecallRequest EmptyString [] [] None 5.

(** A project and the table that holds it. *)
Definition ex_project : Project :=
  mkProject "01J9ZK3V8QPRJ" "app" "/home/dev/app" (Some "git@example.org:dev/app.git")
            1700000000 1700000000.

(** The three [git] commands on a repository whose last commit is [abc123]. *)
Definition ex_git : GitOutput :=
  mkGitOutput
    (Some ["abc123"; "switch to WAL mode"; "dev"; "dev@example.org";
           "2023-11-14 22:13:20 +0000"])
    " store.go | 2 +-" ["store.go"].

Definition ex_filepath : Filepath :=
  mkFilepath (fun path => path) (fun _ => ".go").

(** A git watcher that saw the repository at commit [000111]. *)
Definition ex_git_watcher : GitWatcher :=
  mkGitWatcher [("/home/dev/app", "000111")].

(** A stand-in for [strings.Fields] and [strings.TrimSpace] on commands
    without blanks at either end: the first word, and the identity. *)
Fixpoint first_word (s : string) : string :=
  match s with
  | EmptyString => EmptyString
  | String c s' => if Ascii.eqb c " " then EmptyString else String c (first_word s')
  end.

Definition ex_strings : Strings :=
  mkStrings (fun s => [first_word s]) (fun s => s).


(** A zsh history of 120 bytes whose last three entries are new. *)
Definition ex_history (path : string) : HistoryRead :=
  if String.eqb path "/home/dev/.zsh_history"
  then mkHistoryRead (Some 120)
         (fun _ => Some [": 1700000000:0;git commit -m wip";
                         ": 1700000001:0;ls -la";
                         ": 1700000002:0;export TOKEN=abc";
                         ": 1700000003:0;make test"])
  else mkHistoryRead None (fun _ => None).
(** * Properties *)

(** ** Arithmetic of the two comparisons *)

Lemma Qltb_lt (x y : Q) : Qltb x y = true <-> (x < y)%Q.
Proof.
  unfold Qltb. rewrite negb_true_iff.
  split; intros H.
  - apply Qnot_le_lt. intros Hle. apply Qle_bool_iff in Hle. congruence.
  - destruct (Qle_bool y x) eqn:E; [|reflexivity].
    apply Qle_bool_iff in E. apply Qle_not_lt in E. contradiction.
Qed.

Lemma Qltb_ge (x y : Q) : Qltb x y = false <-> (y <= x)%Q.
Proof.
  unfold Qltb. rewrite negb_false_iff. apply Qle_bool_iff.
Qed.

Lemma decay_selects_true now m :
  decay_selects now m = true <->
  (0.1 < Importance m)%Q /\ LastAccessedAt m < now - one_day.
Proof.
  unfold decay_selects. rewrite andb_true_iff, Qltb_lt, Z.ltb_lt. reflexivity.
Qed.

Lemma decay_selects_false now m :
  decay_selects now m = false <->
  (Importance m <= 0.1)%Q \/ now - one_day <= LastAccessedAt m.
Proof.
  unfold decay_selects. rewrite andb_false_iff, Qltb_ge, Z.ltb_ge. reflexivity.
Qed.

(** ** Decay *)


(** ** The boost of [recordAccess] *)

Lemma boost_le_one (i : Q) : (Qmin 1.0 (i * 1.05) <= 1)%Q.
Proof.
  apply Qle_trans with (y := 1.0%Q); [apply Q.le_min_l | lra].
Qed.

Lemma boost_lower (b i : Q) : (b < 1)%Q -> (0 <= b)%Q -> (b < i)%Q ->
  (b < Qmin 1.0 (i * 1.05))%Q.
Proof.
  intros Hb Hb0 Hi.
  destruct (Q.min_spec 1.0 (i * 1.05)) as [[_ E]|[_ E]]; rewrite E; lra.
Qed.

Lemma boost_increases (i : Q) : (0 < i)%Q -> (i < 1)%Q ->
  (i < Qmin 1.0 (i * 1.05))%Q.
Proof.
  intros H0 H1.
  destruct (Q.min_spec 1.0 (i * 1.05)) as [[_ E]|[_ E]]; rewrite E; lra.
Qed.

Lemma boost_monotone (i : Q) : (0 <= i)%Q -> (i <= 1)%Q ->
  (i <= Qmin 1.0 (i * 1.05))%Q.
Proof.
  intros H0 H1.
  destruct (Q.min_spec 1.0 (i * 1.05)) as [[_ E]|[_ E]]; rewrite E; lra.
Qed.

(** ** Rows of reachable stores *)

Lemma CreateMemory_Ok m s s' :
  CreateMemory m s = Ok s' ->
  has_memory (ID m) s = false
  /\ str_in (Type_ m) memory_types = true
  /\ str_in (Scope m) memory_scopes = true
  /\ s' = mkStore (memories s ++ [set_embedding None m]) (events s).
Proof.
  unfold CreateMemory.
  destruct (has_memory (ID m) s); [discriminate|].
  destruct (str_in (Type_ m) memory_types); [|discriminate].
  destruct (str_in (Scope m) memory_scopes); [|discriminate].
  cbn. intros H. inversion H. auto.
Qed.

Lemma CreateMemory_accepts m s :
  has_memory (ID m) s = false ->
  str_in (Type_ m) memory_types = true ->
  str_in (Scope m) memory_scopes = true ->
  CreateMemory m s = Ok (mkStore (memories s ++ [set_embedding None m]) (events s)).
Proof.
  intros H1 H2 H3. unfold CreateMemory. rewrite H1, H2, H3. reflexivity.
Qed.

Lemma CreateEvent_Ok e s s' :
  CreateEvent e s = Ok s' ->
  has_event (EventID e) s = false
  /\ s' = mkStore (memories s) (events s ++ [mkEventRow e None]).
Proof.
  unfold CreateEvent. destruct (has_event (EventID e) s); [discriminate|].
  intros H. inversion H. auto.
Qed.

(** A property of rows that the two ways of creating a memory establish and
    that the three [UPDATE]s of [memories] keep holds of every row of every
    reachable store. *)
Lemma reachable_rows (G : ExtractedMemory -> Prop) (P : Memory -> Prop) :
  (forall id memoryType content topics now,
      P (manual_memory id memoryType content topics now)) ->
  (forall id now ext, G ext -> accepted ext = true ->
      P (memory_of_extracted id now ext)) ->
  (forall m e, P m -> P (set_embedding e m)) ->
  (forall m now, P m -> P (access_update now m)) ->
  (forall m, P m -> (0.1 < Importance m)%Q -> P (decay_update m)) ->
  forall s, reachable G s -> Forall P (memories s).
Proof.
  intros Hman Hext Hemb Hacc Hdec s H.
  induction H as [ | s s' id ty c tp now _ IH Hc | s s' id now ext _ IH Hg Ha Hc
                 | s id v _ IH | s now id _ IH | s now _ IH
                 | s s' e _ IH Hc | s now id _ IH ].
  - constructor.
  - apply CreateMemory_Ok in Hc. destruct Hc as (_ & _ & _ & ->). cbn.
    apply Forall_app. split; [exact IH|]. constructor; [|constructor].
    apply Hemb, Hman.
  - apply CreateMemory_Ok in Hc. destruct Hc as (_ & _ & _ & ->). cbn.
    apply Forall_app. split; [exact IH|]. constructor; [|constructor].
    apply Hemb, Hext; assumption.
  - cbn. apply Forall_map. revert IH. apply Forall_impl. intros m Hm.
    destruct (String.eqb (ID m) id); auto.
  - cbn. apply Forall_map. revert IH. apply Forall_impl. intros m Hm.
    destruct (String.eqb (ID m) id); auto.
  - cbn. apply Forall_map. revert IH. apply Forall_impl. intros m Hm.
    destruct (decay_selects now m) eqn:E; [|exact Hm].
    apply decay_selects_true in E. apply Hdec; tauto.
  - apply CreateEvent_Ok in Hc. destruct Hc as (_ & ->). exact IH.
  - exact IH.
Qed.

(** The importance of a row of a reachable store is above 0.099 and at
    most 1. *)
Lemma reachable_importance (G : ExtractedMemory -> Prop) s :
  reachable G s ->
  Forall (fun m => (0.099 < Importance m)%Q /\ (Importance m <= 1)%Q) (memories s).
Proof.
  apply reachable_rows.
  - intros. cbn. split; lra.
  - intros. cbn. split; lra.
  - intros m e H. exact H.
  - intros m now [H1 H2]. cbn. split.
    + apply boost_lower; lra.
    + apply boost_le_one.
  - intros m [H1 H2] H. cbn. split; lra.
Qed.

(** The confidence of a row of a reachable store is at least 0.6. *)
Lemma reachable_confidence_lower (G : ExtractedMemory -> Prop) s :
  reachable G s -> Forall (fun m => (0.6 <= Confidence m)%Q) (memories s).
Proof.
  apply reachable_rows.
  - intros. cbn. lra.
  - intros id now ext _ Ha. cbn. apply Qle_bool_iff. exact Ha.
  - intros m e H. exact H.
  - intros m now H. exact H.
  - intros m H _. exact H.
Qed.

(** ** The operations of the program keep the store reachable *)

Section Closure.

Variable G : ExtractedMemory -> Prop.

Lemma record_accesses_reachable clock rows : forall i s,
  reachable G s -> reachable G (record_accesses clock i rows s).
Proof.
  induction rows as [|m rest IH]; intros i s H; cbn.
  - exact H.
  - apply IH. apply reach_access. exact H.
Qed.

Lemma Recall_reachable marshal clock req s :
  reachable G s -> reachable G (snd (Recall marshal clock req s)).
Proof.
  intros H. unfold Recall. cbn. apply record_accesses_reachable. exact H.
Qed.

Lemma rememberCmd_reachable args memoryType topics db_exists id now s :
  reachable G s ->
  reachable G (cmd_store (rememberCmd args memoryType topics db_exists id now s)).
Proof.
  intros H. unfold rememberCmd.
  destruct args as [|a args]; [exact H|].
  destruct db_exists; cbn [negb]; [|exact H].
  destruct (CreateMemory _ s) as [s'|err] eqn:E; cbn; [|exact H].
  eapply reach_remember; eauto.
Qed.

Lemma handleRemember_reachable req_id content type s :
  reachable G s -> reachable G (fst (handleRemember req_id content type s)).
Proof. intros H. exact H. Qed.

Lemma mark_processed_reachable clock batch : forall i s,
  reachable G s -> reachable G (mark_processed clock i batch s).
Proof.
  induction batch as [|e rest IH]; intros i s H; cbn.
  - exact H.
  - apply IH. apply reach_mark. exact H.
Qed.

Lemma create_memories_reachable {B : Type} `{Embedder B} (embedder : B) env
    extracted : forall i s,
  Forall (fun ext => G ext /\ accepted ext = true) extracted ->
  reachable G s ->
  reachable G (fst (create_memories embedder env i extracted s)).
Proof.
  induction extracted as [|ext rest IH]; intros i s Hall Hs; cbn.
  - exact Hs.
  - inversion Hall as [|? ? [Hg Ha] Hrest]; subst.
    destruct (CreateMemory _ s) as [s1|err] eqn:E.
    + assert (H1 : reachable G s1) by (eapply reach_extracted; eauto).
      destruct (Embed embedder _) as [[v|]|err].
      * specialize (IH (S i) (UpdateMemoryEmbedding
                                (ID (memory_of_extracted (env_ulid env i) (env_clock env i) ext))
                                v s1) Hrest (reach_embedding G _ _ _ H1)).
        destruct (create_memories embedder env (S i) rest _). exact IH.
      * specialize (IH (S i) s1 Hrest H1).
        destruct (create_memories embedder env (S i) rest _). exact IH.
      * specialize (IH (S i) s1 Hrest H1).
        destruct (create_memories embedder env (S i) rest _). exact IH.
    + specialize (IH (S i) s Hrest Hs).
      destruct (create_memories embedder env (S i) rest _). exact IH.
Qed.

(** What the Ollama extractor returns was kept by its filter. *)
Lemma OllamaExtractor_Extract_Ok (x : OllamaExtractor) batch extracted :
  Extract x batch = Ok extracted ->
  (batch = [] /\ extracted = [])
  \/ (batch <> []
      /\ exists candidates,
           ext_client x batch = ResponseMemories candidates
           /\ extracted = filter accepted candidates).
Proof.
  unfold Extract, OllamaExtractor_Extract.
  destruct batch as [|e batch].
  - intros H. inversion H. left. auto.
  - destruct (ext_client x (e :: batch)) eqn:E; try discriminate.
    intros H. inversion H. right. split; [discriminate|]. eauto.
Qed.

Lemma OllamaExtractor_extracted (x : OllamaExtractor) batch extracted :
  replies_satisfy G x ->
  Extract x batch = Ok extracted ->
  Forall (fun ext => G ext /\ accepted ext = true) extracted.
Proof.
  intros Hx H. apply OllamaExtractor_Extract_Ok in H.
  destruct H as [[_ ->]|[_ (candidates & Hc & ->)]].
  - constructor.
  - apply Forall_forall. intros ext Hin. apply filter_In in Hin.
    destruct Hin as [Hin Ha]. split; [|exact Ha].
    eapply Hx; eauto.
Qed.

Lemma processBatch_reachable {B : Type} `{Embedder B} (x : OllamaExtractor)
    (embedder : B) env batch s :
  replies_satisfy G x ->
  reachable G s ->
  reachable G (fst (processBatch x embedder env batch s)).
Proof.
  intros Hx Hs. unfold processBatch.
  destruct (Extract x batch) as [extracted|err] eqn:E; cbn.
  - pose proof (create_memories_reachable embedder env extracted 0%nat s
                  (OllamaExtractor_extracted _ _ _ Hx E) Hs) as H1.
    destruct (create_memories embedder env 0 extracted s) as [s1 lg]. cbn in *.
    apply mark_processed_reachable. exact H1.
  - apply mark_processed_reachable. exact Hs.
Qed.

Lemma processEvents_step_reachable {B : Type} `{Embedder B} cfg
    (x : OllamaExtractor) (embedder : B) d msg :
  replies_satisfy G x ->
  reachable G (disp_store d) ->
  reachable G (disp_store (processEvents_step cfg x embedder d msg)).
Proof.
  intros Hx Hd. unfold processEvents_step.
  destruct (disp_returned d); [exact Hd|].
  destruct msg as [env|event env|env].
  - destruct (disp_batch d) as [|e batch] eqn:Eb; [exact Hd|].
    pose proof (processBatch_reachable x embedder env (e :: batch) _ Hx Hd) as H1.
    destruct (processBatch x embedder env (e :: batch) (disp_store d)). exact H1.
  - destruct (CreateEvent event (disp_store d)) as [s1|err] eqn:E; [|exact Hd].
    assert (H1 : reachable G s1) by (eapply reach_event; eauto).
    destruct (BatchSize cfg <=? _); [|exact H1].
    pose proof (processBatch_reachable x embedder env (disp_batch d ++ [event]) _ Hx H1) as H2.
    destruct (processBatch x embedder env (disp_batch d ++ [event]) s1). exact H2.
  - destruct (disp_batch d) as [|e batch] eqn:Eb; [exact Hd|].
    pose proof (processBatch_reachable x embedder env (e :: batch) _ Hx Hd) as H1.
    destruct (processBatch x embedder env (e :: batch) (disp_store d)). exact H1.
Qed.

Lemma processEvents_reachable {B : Type} `{Embedder B} cfg
    (x : OllamaExtractor) (embedder : B) msgs : forall d,
  replies_satisfy G x ->
  reachable G (disp_store d) ->
  reachable G (disp_store (processEvents cfg x embedder d msgs)).
Proof.
  unfold processEvents.
  induction msgs as [|msg msgs IH]; intros d Hx Hd; cbn.
  - exact Hd.
  - apply IH; [exact Hx|]. apply processEvents_step_reachable; assumption.
Qed.

Lemma decayLoop_tick_reachable now s :
  reachable G s -> reachable G (decayLoop_tick now s).
Proof. apply reach_decay. Qed.

End Closure.

(** ** Bounds on confidence and importance *)

Lemma iter_decay_reachable G now n s :
  reachable G s -> reachable G (Nat.iter n (DecayImportance now) s).
Proof.
  intros H. induction n as [|n IH]; cbn.
  - exact H.
  - apply reach_decay. exact IH.
Qed.

Lemma ex_remembered_store_reachable G : reachable G ex_remembered_store.
Proof. apply rememberCmd_reachable. apply reach_new. Qed.

Lemma confidence_upper (G : ExtractedMemory -> Prop) s :
  (forall ext, G ext -> (ExtConfidence ext <= 1)%Q) ->
  reachable G s ->
  Forall (fun m => (Confidence m <= 1)%Q) (memories s).
Proof.
  intros HG. apply reachable_rows.
  - intros. cbn. lra.
  - intros id now ext Hg _. cbn. apply HG. exact Hg.
  - intros m e H. exact H.
  - intros m now H. exact H.
  - intros m H _. exact H.
Qed.

(** C1, as stated, fails: [processBatch] copies the confidence of a
    candidate into the memory without clamping it. A model that answers
    with confidence 2 leaves a memory of confidence 2 in the store. *)
Lemma C1_confidence_not_clamped :
  reachable any_candidate overconfident_store
  /\ In (memory_of_extracted "A-01J9ZK3V8Q" 1700000000 overconfident)
        (memories overconfident_store)
  /\ ~ unit_interval
         (Confidence (memory_of_extracted "A-01J9ZK3V8Q" 1700000000 overconfident)).
Proof.
  split; [|split].
  - apply processBatch_reachable.
    + intros events candidates ext _ _. exact I.
    + apply reach_new.
  - vm_compute. left. reflexivity.
  - intros [_ H]. vm_compute in H. apply H. reflexivity.
Qed.

(** C1, amended. In every store that the program can reach, every memory
    has its importance in [0,1] and a confidence of at least 0 (at least
    0.6, in fact); its confidence is at most 1 as soon as every candidate
    that the model returned had a confidence of at most 1. *)
Theorem C1_bounds : forall (G : ExtractedMemory -> Prop) (s : Store),
  reachable G s ->
  forall m, In m (memories s) ->
    unit_interval (Importance m)
    /\ (0 <= Confidence m)%Q
    /\ (0.6 <= Confidence m)%Q
    /\ ((forall ext, G ext -> (ExtConfidence ext <= 1)%Q) ->
        unit_interval (Confidence m)).
Proof.
  intros G s Hs m Hin.
  pose proof (reachable_importance G s Hs) as Hi.
  pose proof (reachable_confidence_lower G s Hs) as Hc.
  rewrite Forall_forall in Hi, Hc.
  specialize (Hi m Hin). specialize (Hc m Hin). destruct Hi as [Hi1 Hi2].
  split; [|split; [|split]].
  - split; lra.
  - lra.
  - exact Hc.
  - intros HG. pose proof (confidence_upper G s HG Hs) as Hu.
    rewrite Forall_forall in Hu. specialize (Hu m Hin). split; lra.
Qed.

Lemma C1_bounds_witness :
  reachable confidence_at_most_one ex_remembered_store
  /\ In ex_remembered (memories ex_remembered_store)
  /\ unit_interval (Importance ex_remembered)
  /\ (0 <= Confidence ex_remembered)%Q
  /\ (0.6 <= Confidence ex_remembered)%Q
  /\ ((forall ext, confidence_at_most_one ext -> (ExtConfidence ext <= 1)%Q) ->
      unit_interval (Confidence ex_remembered)).
Proof.
  assert (Hr : reachable confidence_at_most_one ex_remembered_store)
    by apply ex_remembered_store_reachable.
  assert (Hin : In ex_remembered (memories ex_remembered_store))
    by (left; reflexivity).
  split; [exact Hr|]. split; [exact Hin|].
  exact (C1_bounds confidence_at_most_one ex_remembered_store Hr ex_remembered Hin).
Defined.

(** ** The floor of decay *)

(** C10. In every store that the program can reach, the importance of every
    memory is strictly above 0.099 = 0.1 * 0.99: the decay applies only to a
    row whose importance exceeds 0.1 and multiplies it by 0.99, which leaves
    it above 0.099, and the boost of an access does not lower an importance
    that lies in [0,1]. The decay does take the importance below 0.1: 230
    runs on a memory that is never accessed do. *)
Theorem C10_importance_above_floor :
  (forall (G : ExtractedMemory -> Prop) (s : Store),
      reachable G s ->
      forall m, In m (memories s) -> (0.099 < Importance m)%Q)
  /\ (forall now m,
        decay_selects now m = true ->
        (0.1 < Importance m)%Q
        /\ Importance (decay_update m) = (Importance m * 0.99)%Q
        /\ (0.099 < Importance (decay_update m))%Q)
  /\ (forall now m,
        unit_interval (Importance m) ->
        (Importance m <= Importance (access_update now m))%Q)
  /\ (exists m,
        reachable any_candidate ex_stale_store
        /\ In m (memories ex_stale_store)
        /\ (Importance m < 0.1)%Q
        /\ (0.1 * 0.99 < Importance m)%Q).
Proof.
  split; [|split; [|split]].
  - intros G s Hs m Hin.
    pose proof (reachable_importance G s Hs) as Hi.
    rewrite Forall_forall in Hi. apply (Hi m Hin).
  - intros now m H. apply decay_selects_true in H. destruct H as [H _].
    split; [exact H|]. split; [reflexivity|]. cbn. lra.
  - intros now m [H0 H1]. cbn. apply boost_monotone; assumption.
  - eexists. split; [|split; [|split]].
    + apply iter_decay_reachable. apply ex_remembered_store_reachable.
    + vm_compute. left. reflexivity.
    + vm_compute. reflexivity.
    + vm_compute. reflexivity.
Qed.

Lemma C10_importance_above_floor_witness :
  reachable any_candidate ex_stale_store
  /\ (forall m, In m (memories ex_stale_store) -> (0.099 < Importance m)%Q).
Proof.
  assert (Hr : reachable any_candidate ex_stale_store).
  { apply iter_decay_reachable. apply ex_remembered_store_reachable. }
  split; [exact Hr|].
  exact (proj1 C10_importance_above_floor any_candidate ex_stale_store Hr).
Defined.

(** ** The primary key of [memories] *)

Lemma has_memory_false id s :
  has_memory id s = false <-> ~ In id (map ID (memories s)).
Proof.
  unfold has_memory. induction (memories s) as [|m l IH]; cbn.
  - tauto.
  - rewrite orb_false_iff, IH. destruct (String.eqb_spec (ID m) id); intuition congruence.
Qed.

Lemma reachable_ids (G : ExtractedMemory -> Prop) s :
  reachable G s -> NoDup (map ID (memories s)).
Proof.
  intros H.
  induction H as [ | s s' id ty c tp now _ IH Hc | s s' id now ext _ IH Hg Ha Hc
                 | s id v _ IH | s now id _ IH | s now _ IH
                 | s s' e _ IH Hc | s now id _ IH ].
  - constructor.
  - apply CreateMemory_Ok in Hc. destruct Hc as (Hf & _ & _ & ->). cbn.
    apply has_memory_false in Hf. rewrite map_app. cbn.
    apply NoDup_app; [exact IH | constructor; [intros []|constructor] | ].
    intros a Ha [<-|[]]. cbn in Hf. contradiction.
  - apply CreateMemory_Ok in Hc. destruct Hc as (Hf & _ & _ & ->). cbn.
    apply has_memory_false in Hf. rewrite map_app. cbn.
    apply NoDup_app; [exact IH | constructor; [intros []|constructor] | ].
    intros a Ha' [<-|[]]. cbn in Hf. contradiction.
  - cbn. rewrite map_map.
    erewrite map_ext; [exact IH|]. intros m. cbn.
    destruct (String.eqb (ID m) id); reflexivity.
  - cbn. rewrite map_map.
    erewrite map_ext; [exact IH|]. intros m. cbn.
    destruct (String.eqb (ID m) id); reflexivity.
  - cbn. rewrite map_map.
    erewrite map_ext; [exact IH|]. intros m. cbn.
    destruct (decay_selects now m); reflexivity.
  - apply CreateEvent_Ok in Hc. destruct Hc as (_ & ->). exact IH.
  - exact IH.
Qed.

Lemma NoDup_map_inj {A B : Type} (f : A -> B) (l : list A) a b :
  NoDup (map f l) -> In a l -> In b l -> f a = f b -> a = b.
Proof.
  induction l as [|x l IH]; cbn; intros Hnd Ha Hb Hab; [contradiction|].
  inversion Hnd as [|? ? Hx Hl]; subst.
  destruct Ha as [->|Ha], Hb as [->|Hb].
  - reflexivity.
  - exfalso. apply Hx. rewrite Hab. apply in_map. exact Hb.
  - exfalso. apply Hx. rewrite <- Hab. apply in_map. exact Ha.
  - apply IH; assumption.
Qed.

(** ** The order of the result of [Recall] *)

Lemma ranks_before_true a b : ranks_before a b = true -> ranked a b.
Proof.
  unfold ranks_before, ranked.
  destruct (Qcompare (Importance a) (Importance b)) eqn:E; intros H.
  - right. apply Qeq_alt in E. split; [symmetry; exact E|]. apply Z.leb_le. exact H.
  - discriminate.
  - left. apply Qgt_alt in E. exact E.
Qed.

Lemma ranks_before_false a b : ranks_before a b = false -> ranked b a.
Proof.
  unfold ranks_before, ranked.
  destruct (Qcompare (Importance a) (Importance b)) eqn:E; intros H.
  - right. apply Qeq_alt in E. split; [exact E|]. apply Z.leb_gt in H. lia.
  - left. apply Qlt_alt in E. exact E.
  - discriminate.
Qed.

Lemma ranked_trans a b c : ranked a b -> ranked b c -> ranked a c.
Proof.
  unfold ranked. intros [H1|[H1 H1']] [H2|[H2 H2']].
  - left. lra.
  - left. lra.
  - left. lra.
  - right. split; [lra|lia].
Qed.

Lemma insert_ranked_perm m l : Permutation (insert_ranked m l) (m :: l).
Proof.
  induction l as [|x l IH]; cbn.
  - reflexivity.
  - destruct (ranks_before m x); [reflexivity|].
    rewrite IH. apply perm_swap.
Qed.

Lemma order_by_perm l : Permutation (order_by l) l.
Proof.
  induction l as [|m l IH]; cbn.
  - reflexivity.
  - rewrite insert_ranked_perm. constructor. exact IH.
Qed.

Lemma insert_ranked_sorted m l :
  StronglySorted ranked l -> StronglySorted ranked (insert_ranked m l).
Proof.
  induction l as [|x l IH]; cbn; intros Hs.
  - constructor; constructor.
  - inversion Hs as [|? ? Hl Hx]; subst.
    destruct (ranks_before m x) eqn:E.
    + apply ranks_before_true in E.
      constructor; [exact Hs|]. constructor; [exact E|].
      revert Hx. apply Forall_impl. intros y Hy. eapply ranked_trans; eauto.
    + apply ranks_before_false in E.
      constructor; [apply IH; exact Hl|].
      rewrite (Forall_forall (ranked x)). intros y Hy.
      apply (Permutation_in _ (insert_ranked_perm m l)) in Hy.
      destruct Hy as [<-|Hy]; [exact E|].
      rewrite Forall_forall in Hx. apply Hx. exact Hy.
Qed.

Lemma order_by_sorted l : StronglySorted ranked (order_by l).
Proof.
  induction l as [|m l IH]; cbn.
  - constructor.
  - apply insert_ranked_sorted. exact IH.
Qed.

Lemma StronglySorted_firstn {A : Type} (R : A -> A -> Prop) n : forall l,
  StronglySorted R l -> StronglySorted R (firstn n l).
Proof.
  induction n as [|n IH]; intros l Hs; cbn.
  - constructor.
  - destruct l as [|x l]; [constructor|].
    inversion Hs as [|? ? Hl Hx]; subst.
    constructor; [apply IH; exact Hl|].
    rewrite Forall_forall in *. intros y Hy. apply Hx.
    rewrite <- (firstn_skipn n l). apply in_or_app. left. exact Hy.
Qed.


Lemma recall_rows_incl marshal req s m :
  In m (recall_rows marshal req s) ->
  In m (memories s) /\ recall_where marshal req m = true.
Proof.
  unfold recall_rows. intros H.
  assert (H1 : In m (order_by (filter (recall_where marshal req) (memories s)))).
  { rewrite <- (firstn_skipn (Z.to_nat (recall_limit req))). apply in_or_app. left. exact H. }
  apply (Permutation_in _ (order_by_perm _)) in H1.
  apply filter_In in H1. exact H1.
Qed.

(** ** [LIKE] *)

Lemma like_percent_eq p text :
  like (String "%" p) text
  = (like p text
     || match text with
        | EmptyString => false
        | String _ text' => like (String "%" p) text'
        end).
Proof. destruct text; reflexivity. Qed.


Lemma like_percent_intro p rest : forall pre,
  like p rest = true -> like (String "%" p) (pre ++ rest) = true.
Proof.
  induction pre as [|c pre IH]; intros H; rewrite like_percent_eq.
  - cbn. rewrite H. reflexivity.
  - cbn [String.append]. rewrite (IH H). apply orb_true_r.
Qed.

Lemma like_char_fold c d : like_char c d = true <-> fold_case c = fold_case d.
Proof. unfold like_char. apply Ascii.eqb_eq. Qed.



Lemma like_percent_all text : like "%" text = true.
Proof.
  induction text as [|c text IH]; rewrite like_percent_eq; [reflexivity|].
  rewrite IH. apply orb_true_r.
Qed.




(** ** The result of [Recall] *)

Lemma str_in_In x l : str_in x l = true <-> In x l.
Proof.
  unfold str_in. rewrite existsb_exists. split.
  - intros (y & Hy & E). apply String.eqb_eq in E. subst. exact Hy.
  - intros H. exists x. split; [exact H|apply String.eqb_refl].
Qed.








(** ** The side effect of [Recall] *)

Lemma index_of_None id rows :
  ~ In id (map ID rows) -> index_of id rows = None.
Proof.
  induction rows as [|r rest IH]; cbn; intros H; [reflexivity|].
  destruct (String.eqb_spec (ID r) id) as [E|E]; [tauto|].
  rewrite IH; [reflexivity|tauto].
Qed.

Lemma index_of_nth rows : forall i m,
  NoDup (map ID rows) -> nth_error rows i = Some m ->
  index_of (ID m) rows = Some i.
Proof.
  induction rows as [|r rest IH]; intros i m Hnd Hi.
  - destruct i; discriminate.
  - cbn in Hnd. inversion Hnd as [|? ? Hr Hrest]; subst.
    destruct i as [|i]; cbn in Hi.
    + inversion Hi; subst. cbn. rewrite String.eqb_refl. reflexivity.
    + cbn. destruct (String.eqb_spec (ID r) (ID m)) as [E|E].
      * exfalso. apply Hr. rewrite E. apply in_map. eapply nth_error_In; eauto.
      * rewrite (IH i m Hrest Hi). reflexivity.
Qed.

(** The rows after the loop of [Recall]: the row whose identifier is that
    of the [k]-th row returned got the update of [recordAccess] once, at
    the [k]-th reading of the clock; the other rows are as before. *)
Lemma record_accesses_memories clock rows : forall i s,
  NoDup (map ID rows) ->
  memories (record_accesses clock i rows s)
  = map (fun m =>
           match index_of (ID m) rows with
           | Some k => access_update (clock (i + k)%nat) m
           | None => m
           end)
        (memories s).
Proof.
  induction rows as [|r rest IH]; intros i s Hnd; cbn [record_accesses index_of].
  - symmetry. apply map_id.
  - cbn in Hnd. inversion Hnd as [|? ? Hr Hrest]; subst.
    rewrite (IH (S i) _ Hrest). cbn [recordAccess memories].
    rewrite map_map. apply map_ext. intros m.
    destruct (String.eqb_spec (ID m) (ID r)) as [E|E].
    + rewrite (proj2 (String.eqb_eq (ID r) (ID m)) (eq_sym E)).
      cbn [access_update ID]. rewrite E, (index_of_None _ _ Hr).
      rewrite Nat.add_0_r. reflexivity.
    + destruct (String.eqb_spec (ID r) (ID m)) as [E'|E']; [congruence|].
      destruct (index_of (ID m) rest) as [k|]; cbn [option_map]; [|reflexivity].
      rewrite Nat.add_succ_r. reflexivity.
Qed.

Lemma record_accesses_events clock rows : forall i s,
  events (record_accesses clock i rows s) = events s.
Proof.
  induction rows as [|r rest IH]; intros i s; cbn; [reflexivity|].
  rewrite IH. reflexivity.
Qed.

Lemma NoDup_firstn {A : Type} n : forall (l : list A),
  NoDup l -> NoDup (firstn n l).
Proof.
  intros l H. rewrite <- (firstn_skipn n l) in H.
  apply NoDup_app_remove_r in H. exact H.
Qed.

Lemma NoDup_map_filter {A B : Type} (f : A -> B) (p : A -> bool) l :
  NoDup (map f l) -> NoDup (map f (filter p l)).
Proof.
  induction l as [|x l IH]; cbn; intros H; [constructor|].
  inversion H as [|? ? Hx Hl]; subst.
  destruct (p x); [|auto]. cbn. constructor; [|auto].
  intros Hin. apply Hx. apply in_map_iff in Hin.
  destruct Hin as (y & Hy & Hin). apply filter_In in Hin.
  rewrite <- Hy. apply in_map. tauto.
Qed.

Lemma recall_rows_ids marshal req s :
  NoDup (map ID (memories s)) -> NoDup (map ID (recall_rows marshal req s)).
Proof.
  intros H. unfold recall_rows. rewrite <- firstn_map. apply NoDup_firstn.
  apply (Permutation_NoDup
           (l := map ID (filter (recall_where marshal req) (memories s)))).
  - apply Permutation_map. symmetry. apply order_by_perm.
  - apply NoDup_map_filter. exact H.
Qed.

Lemma access_update_same now m : same_but_access m (access_update now m).
Proof. unfold same_but_access. cbn. repeat split. Qed.

(** Repeated accesses: the importance after the accesses at [times]. *)
Lemma repeated_access_bounds times : forall m,
  (0 < Importance m)%Q -> (Importance m <= 1)%Q ->
  let m' := fold_left (fun r t => access_update t r) times m in
  (Importance m <= Importance m')%Q /\ (Importance m' <= 1)%Q
  /\ (times <> [] -> (Importance m < 1)%Q -> (Importance m < Importance m')%Q).
Proof.
  induction times as [|t times IH]; intros m H0 H1; cbn.
  - split; [lra|]. split; [exact H1|]. intros H. contradiction H. reflexivity.
  - assert (Hb : (Importance m <= Importance (access_update t m))%Q).
    { cbn. apply boost_monotone; lra. }
    assert (Hu : (Importance (access_update t m) <= 1)%Q).
    { cbn. apply boost_le_one. }
    destruct (IH (access_update t m)) as (I1 & I2 & I3); [lra|exact Hu|].
    split; [lra|]. split; [exact I2|].
    intros _ Hlt.
    assert (Hs : (Importance m < Importance (access_update t m))%Q).
    { cbn. apply boost_increases; assumption. }
    lra.
Qed.

Lemma Forall2_map_of {A : Type} (R : A -> A -> Prop) (f : A -> A) l :
  (forall m, In m l -> R m (f m)) -> Forall2 R l (map f l).
Proof.
  induction l as [|x l IH]; cbn; intros H; constructor.
  - apply H. left. reflexivity.
  - apply IH. intros m Hm. apply H. right. exact Hm.
Qed.

(** C2. On a store that the program can reach, [Recall] returns the rows
    selected and leaves the store as follows: the table of events is as
    before; the row of the [i]-th memory returned has its last access set to
    the time read in iteration [i], its access counter one higher, its
    importance equal to [min(1.0, importance * 1.05)] and its other columns
    as before; every other row is as before. The new importance is at most
    1, and strictly above the old one when that was below 1; after any
    number of accesses in a row the importance is still at most 1, and
    strictly above where it started if that was below 1. *)
Theorem C2_Recall_access_boost :
  forall (G : ExtractedMemory -> Prop) (marshal : list string -> string)
         (clock : nat -> Time) (req : RecallRequest) (s : Store),
    reachable G s ->
    fst (Recall marshal clock req s) = map scan_row (recall_rows marshal req s)
    /\ events (snd (Recall marshal clock req s)) = events s
    /\ Forall2
         (fun m m' =>
            (forall i, nth_error (recall_rows marshal req s) i = Some m ->
               LastAccessedAt m' = clock i
               /\ AccessCount m' = AccessCount m + 1
               /\ Importance m' = Qmin 1.0 (Importance m * 1.05)
               /\ same_but_access m m'
               /\ (Importance m' <= 1)%Q
               /\ ((Importance m < 1)%Q -> (Importance m < Importance m')%Q))
            /\ (~ In m (recall_rows marshal req s) -> m' = m))
         (memories s) (memories (snd (Recall marshal clock req s)))
    /\ (forall m times,
          In m (memories s) ->
          (Importance (fold_left (fun r t => access_update t r) times m) <= 1)%Q
          /\ (times <> [] -> (Importance m < 1)%Q ->
              (Importance m
               < Importance (fold_left (fun r t => access_update t r) times m))%Q)).
Proof.
  intros G marshal clock req s Hs.
  pose proof (reachable_ids G s Hs) as Hnd.
  pose proof (recall_rows_ids marshal req s Hnd) as Hrows.
  pose proof (reachable_importance G s Hs) as Himp.
  rewrite Forall_forall in Himp.
  split; [reflexivity|]. split; [apply record_accesses_events|].
  split.
  - unfold Recall. cbn [snd].
    rewrite (record_accesses_memories clock _ 0%nat s Hrows).
    apply Forall2_map_of. intros m Hm. split.
    + intros i Hi. rewrite (index_of_nth _ i m Hrows Hi). cbn [Nat.add].
      destruct (Himp m Hm) as [H0 H1].
      split; [reflexivity|]. split; [reflexivity|]. split; [reflexivity|].
      split; [apply access_update_same|].
      split; [cbn; apply boost_le_one|].
      intros Hlt. cbn. apply boost_increases; lra.
    + intros Hnot. rewrite index_of_None; [reflexivity|].
      intros Hin. apply in_map_iff in Hin. destruct Hin as (r & Hid & Hr).
      apply Hnot.
      assert (r = m); [|subst; exact Hr].
      apply (NoDup_map_inj ID (memories s)); auto.
      apply (recall_rows_incl marshal req s r Hr).
  - intros m times Hm. destruct (Himp m Hm) as [H0 H1].
    destruct (repeated_access_bounds times m) as (_ & I2 & I3); [lra|exact H1|].
    split; [exact I2|exact I3].
Qed.

Lemma C2_Recall_access_boost_witness :
  reachable any_candidate ex_remembered_store
  /\ fst (Recall ex_marshal (env_clock ex_env) ex_pkce_request ex_remembered_store)
     = map scan_row (recall_rows ex_marshal ex_pkce_request ex_remembered_store)
  /\ events (snd (Recall ex_marshal (env_clock ex_env) ex_pkce_request
                    ex_remembered_store))
     = events ex_remembered_store
  /\ Forall2
       (fun m m' =>
          (forall i,
             nth_error (recall_rows ex_marshal ex_pkce_request ex_remembered_store) i
             = Some m ->
             LastAccessedAt m' = env_clock ex_env i
             /\ AccessCount m' = AccessCount m + 1
             /\ Importance m' = Qmin 1.0 (Importance m * 1.05)
             /\ same_but_access m m'
             /\ (Importance m' <= 1)%Q
             /\ ((Importance m < 1)%Q -> (Importance m < Importance m')%Q))
          /\ (~ In m (recall_rows ex_marshal ex_pkce_request ex_remembered_store) ->
              m' = m))
       (memories ex_remembered_store)
       (memories (snd (Recall ex_marshal (env_clock ex_env) ex_pkce_request
                         ex_remembered_store)))
  /\ (forall m times,
        In m (memories ex_remembered_store) ->
        (Importance (fold_left (fun r t => access_update t r) times m) <= 1)%Q
        /\ (times <> [] -> (Importance m < 1)%Q ->
            (Importance m
             < Importance (fold_left (fun r t => access_update t r) times m))%Q)).
Proof.
  assert (Hr : reachable any_candidate ex_remembered_store).
  { apply rememberCmd_reachable. apply reach_new. }
  split; [exact Hr|].
  exact (C2_Recall_access_boost any_candidate ex_marshal (env_clock ex_env)
           ex_pkce_request ex_remembered_store Hr).
Defined.

(** The scenario of the spec: a memory of importance 0.95 is recalled; its
    counter goes up by one and its importance becomes 0.9975. *)
Example access_update_scenario :
  let b := set_importance 0.95 ex_remembered in
  let b' := access_update 1700000100 b in
  AccessCount b' = AccessCount b + 1
  /\ (Importance b' == 0.9975)%Q
  /\ LastAccessedAt b' = 1700000100.
Proof. cbn. repeat split. Qed.

(** ** Marking the events of a batch *)

Lemma mark_processed_memories clock batch : forall i s,
  memories (mark_processed clock i batch s) = memories s.
Proof.
  induction batch as [|e rest IH]; intros i s; cbn; [reflexivity|].
  rewrite IH. reflexivity.
Qed.

Lemma mark_processed_events clock batch : forall i s,
  events (mark_processed clock i batch s) = map (mark_row clock i batch) (events s).
Proof.
  induction batch as [|e rest IH]; intros i s; cbn [mark_processed mark_row].
  - symmetry. apply map_id.
  - rewrite IH. cbn [MarkEventProcessed events]. rewrite map_map. reflexivity.
Qed.

Lemma mark_row_event clock batch : forall i r,
  row_event (mark_row clock i batch r) = row_event r.
Proof.
  induction batch as [|e rest IH]; intros i r; cbn; [reflexivity|].
  rewrite IH. destruct (String.eqb _ _); reflexivity.
Qed.

Lemma mark_row_keeps clock batch : forall i r,
  processed_at r <> None -> processed_at (mark_row clock i batch r) <> None.
Proof.
  induction batch as [|e rest IH]; intros i r H; cbn; [exact H|].
  apply IH. destruct (String.eqb _ _); [discriminate|exact H].
Qed.

Lemma mark_row_marks clock batch : forall i r,
  In (EventID (row_event r)) (map EventID batch) ->
  processed_at (mark_row clock i batch r) <> None.
Proof.
  induction batch as [|e rest IH]; intros i r H; cbn in *; [contradiction|].
  destruct (String.eqb_spec (EventID (row_event r)) (EventID e)) as [E|E].
  - apply mark_row_keeps. discriminate.
  - apply IH. destruct H as [H|H]; [congruence|exact H].
Qed.

Lemma mark_processed_marks clock batch i s :
  stored batch s ->
  forall e, In e batch -> marked_processed e (mark_processed clock i batch s).
Proof.
  intros Hst e He. destruct (Hst e He) as (row & Hrow & Hev).
  unfold marked_processed. rewrite mark_processed_events.
  assert (Hm : processed_at (mark_row clock i batch row) <> None).
  { apply mark_row_marks. rewrite Hev. apply in_map. exact He. }
  destruct (processed_at (mark_row clock i batch row)) as [t|] eqn:Et;
    [|contradiction Hm; reflexivity].
  exists (mark_row clock i batch row), t.
  split; [apply in_map; exact Hrow|].
  split; [rewrite mark_row_event; exact Hev|exact Et].
Qed.

(** ** Failure of the extraction *)

(** C5. When [Extract] returns an error on a batch whose events are stored,
    [processBatch] leaves the memories as they were (none is created),
    marks every event of the batch processed, keeps the events of the
    table, and logs the failure once; it returns no error. The loop of
    [processEvents] that flushed the batch goes on with an empty batch: the
    events are not handed to the extractor again. *)
Theorem C5_extraction_failure :
  forall (X B : Type) (EX : Extractor X) (EB : Embedder B)
         (extractor : X) (embedder : B) (env : Env)
         (batch : list Event) (s : Store) (err : string),
    Extract extractor batch = Err err ->
    stored batch s ->
    memories (fst (processBatch extractor embedder env batch s)) = memories s
    /\ (forall e, In e batch ->
          marked_processed e (fst (processBatch extractor embedder env batch s)))
    /\ map row_event (events (fst (processBatch extractor embedder env batch s)))
       = map row_event (events s)
    /\ snd (processBatch extractor embedder env batch s)
       = [LogProcessingBatch (List.length batch); LogExtractionFailed err]
    /\ (forall cfg d,
          disp_returned d = false -> disp_batch d = batch -> batch <> [] ->
          disp_store d = s ->
          let d' := processEvents_step cfg extractor embedder d (TimerFired env) in
          disp_returned d' = false
          /\ disp_batch d' = []
          /\ disp_store d' = fst (processBatch extractor embedder env batch s)
          /\ disp_effects d' = disp_effects d ++ [CallProcessBatch batch; TimerReset]).
Proof.
  intros X B EX EB extractor embedder env batch s err Herr Hst.
  unfold processBatch. rewrite Herr. cbn [fst snd].
  split; [apply mark_processed_memories|].
  split; [apply mark_processed_marks; exact Hst|].
  split.
  { rewrite mark_processed_events, map_map.
    apply map_ext. intros r. apply mark_row_event. }
  split; [reflexivity|].
  intros cfg d Hret Hb Hne Hs. unfold processEvents_step.
  rewrite Hret, Hb, Hs.
  destruct batch as [|e rest]; [contradiction Hne; reflexivity|].
  unfold processBatch. rewrite Herr. cbn. auto.
Qed.

Lemma C5_extraction_failure_witness :
  Extract unreachable_extractor [ex_event]
  = Err "ollama request failed: dial tcp 127.0.0.1:11434: connection refused"
  /\ stored [ex_event] ex_event_store
  /\ memories (fst (processBatch unreachable_extractor mkNullEmbedder ex_env
                      [ex_event] ex_event_store))
     = memories ex_event_store
  /\ (forall e, In e [ex_event] ->
        marked_processed e
          (fst (processBatch unreachable_extractor mkNullEmbedder ex_env
                  [ex_event] ex_event_store))).
Proof.
  assert (He : Extract unreachable_extractor [ex_event]
               = Err "ollama request failed: dial tcp 127.0.0.1:11434: connection refused")
    by reflexivity.
  assert (Hst : stored [ex_event] ex_event_store).
  { intros e [<-|[]]. exists (mkEventRow ex_event None).
    split; [left; reflexivity|reflexivity]. }
  split; [exact He|]. split; [exact Hst|].
  destruct (C5_extraction_failure OllamaExtractor NullEmbedder _ _
              unreachable_extractor mkNullEmbedder ex_env [ex_event]
              ex_event_store _ He Hst) as (H1 & H2 & _).
  split; [exact H1|exact H2].
Defined.

(** The batches of the dispatcher are stored: every event of the batch
    under construction has a row in [events]. *)
Lemma stored_app_row batch s row :
  stored batch s ->
  stored (batch ++ [row_event row]) (mkStore (memories s) (events s ++ [row])).
Proof.
  intros H e He. apply in_app_or in He. destruct He as [He|[<-|[]]].
  - destruct (H e He) as (r & Hr & Hev). exists r.
    split; [cbn; apply in_or_app; left; exact Hr|exact Hev].
  - exists row. split; [cbn; apply in_or_app; right; left; reflexivity|reflexivity].
Qed.

Lemma stored_rows batch s s' :
  map row_event (events s') = map row_event (events s) ->
  stored batch s -> stored batch s'.
Proof.
  intros Hmap H e He. destruct (H e He) as (r & Hr & Hev).
  assert (Hin : In e (map row_event (events s'))).
  { rewrite Hmap, <- Hev. apply in_map. exact Hr. }
  apply in_map_iff in Hin. destruct Hin as (r' & Hr' & Hin'). eauto.
Qed.

(** ** Creation of the memories of a batch *)


Lemma create_memories_events {B : Type} `{Embedder B} (embedder : B) env
    extracted : forall i s,
  events (fst (create_memories embedder env i extracted s)) = events s.
Proof.
  induction extracted as [|ext rest IH]; intros i s; cbn; [reflexivity|].
  destruct (CreateMemory _ s) as [s1|err] eqn:E.
  - apply CreateMemory_Ok in E. destruct E as (_ & _ & _ & ->).
    destruct (Embed embedder _) as [[v|]|err].
    + match goal with
      | |- context [create_memories embedder env (S i) rest ?t] =>
          specialize (IH (S i) t); destruct (create_memories embedder env (S i) rest t)
      end. exact IH.
    + match goal with
      | |- context [create_memories embedder env (S i) rest ?t] =>
          specialize (IH (S i) t); destruct (create_memories embedder env (S i) rest t)
      end. exact IH.
    + match goal with
      | |- context [create_memories embedder env (S i) rest ?t] =>
          specialize (IH (S i) t); destruct (create_memories embedder env (S i) rest t)
      end. exact IH.
  - specialize (IH (S i) s).
    destruct (create_memories embedder env (S i) rest s). exact IH.
Qed.








(** ** The remember surfaces *)

(** The command line creates the memory: with a type of the schema and a
    new identifier, [rememberCmd] appends a memory of confidence 1.0, scope
    personal and source manual, and prints its identifier. *)
Lemma rememberCmd_creates args memoryType topics id now s :
  args <> [] -> In memoryType memory_types -> has_memory id s = false ->
  exists m,
    memories (cmd_store (rememberCmd args memoryType topics true id now s))
    = memories s ++ [m]
    /\ ID m = id /\ Type_ m = memoryType /\ Content m = join_args args
    /\ Confidence m = 1.0%Q /\ Scope m = MemoryScopePersonal
    /\ SourceType (Source_ m) = SourceTypeManual
    /\ nth_error (cmd_stdout (rememberCmd args memoryType topics true id now s)) 0
       = Some ("Memory created: " ++ id)%string
    /\ cmd_error (rememberCmd args memoryType topics true id now s) = None.
Proof.
  intros Hargs Hty Hid. unfold rememberCmd.
  destruct args as [|a args]; [contradiction Hargs; reflexivity|].
  cbn [negb].
  rewrite CreateMemory_accepts;
    [|exact Hid|apply str_in_In; exact Hty|reflexivity].
  eexists. cbn. split; [reflexivity|]. repeat split.
Qed.

(** C7 holds of the command line ([rememberCmd_creates]) but not of the
    assistant-facing surface: [handleRemember] answers "Remembered" and
    leaves the store as it was; no memory is created and no identifier is
    returned. *)
Theorem C7_handleRemember_creates_no_memory :
  forall (req_id content type : string) (s : Store),
    fst (handleRemember req_id content type s) = s
    /\ snd (handleRemember req_id content type s)
       = ResultText req_id
           ("Remembered: " ++ content ++ " (type: "
            ++ match type with EmptyString => "fact" | _ => type end ++ ")")%string.
Proof. intros req_id content type s. split; reflexivity. Qed.

(** The two surfaces on the same call, [remember "Use PKCE for mobile auth"]
    with type [decision]. *)
Example remember_surfaces_differ :
  memories (cmd_store (rememberCmd ["Use PKCE for mobile auth"] "decision" []
                         true "01J9ZK3V8QMEM" 1700000000 emptyStore))
  = [ex_remembered]
  /\ memories (fst (handleRemember "1" "Use PKCE for mobile auth" "decision"
                      emptyStore))
     = [].
Proof. split; reflexivity. Qed.

(** ** The full queue *)

Lemma try_send_full event q :
  chan_cap q <= Z.of_nat (List.length (chan_buf q)) -> try_send event q = None.
Proof.
  intros H. unfold try_send.
  destruct (Z.ltb_spec (Z.of_nat (List.length (chan_buf q))) (chan_cap q)); [lia|].
  reflexivity.
Qed.

Lemma send_or_drop_full producer event q :
  chan_cap q <= Z.of_nat (List.length (chan_buf q)) ->
  send_or_drop producer event q = (q, [LogQueueFull producer]).
Proof.
  intros H. unfold send_or_drop. rewrite try_send_full; [reflexivity|exact H].
Qed.

(** C8. When the event queue holds its 10,000 events, the send of every
    producer takes the [default] branch: the function returns, with the
    queue as it was (the event submitted is not in it, the events held are
    unchanged) and with no error among its results; the drop is a line of
    the log. *)
Theorem C8_full_queue_drops_event :
  forall (q : Chan),
    chan_cap q = eventQueueCapacity ->
    Z.of_nat (List.length (chan_buf q)) = 10000 ->
    (forall event, try_send event q = None)
    /\ (forall fp repoPath git id now w,
          snd (fst (checkRepo fp repoPath git id now w q)) = q)
    /\ (forall fp repoPath git id now w line,
          In line (snd (checkRepo fp repoPath git id now w q)) ->
          (exists repo message, line = LogGitEvent repo message)
          \/ line = LogQueueFull "git")
    /\ (forall fp path fs id now,
          fst (FileWatcher_emitEvent fp path fs id now q) = q)
    /\ (forall fp path fs id now size,
          stat_size fs = Some size ->
          snd (FileWatcher_emitEvent fp path fs id now q)
          = [LogFileEvent (Base fp path); LogQueueFull "file"])
    /\ (forall cmd id now,
          TerminalWatcher_emitEvent cmd id now q
          = (q, [LogTerminalEvent (truncate cmd 50); LogQueueFull "terminal"])).
Proof.
  intros q Hcap Hlen.
  assert (Hfull : chan_cap q <= Z.of_nat (List.length (chan_buf q))).
  { rewrite Hcap, Hlen. unfold eventQueueCapacity. lia. }
  split; [intros event; apply try_send_full; exact Hfull|].
  split.
  { intros fp repoPath git id now w. unfold checkRepo.
    destruct (git_log_parts git) as [parts|]; [|reflexivity].
    destruct (List.length parts <? 5)%nat; [reflexivity|].
    destruct (map_get repoPath (lastCommit w)) as [lastHash|]; [|reflexivity].
    destruct (String.eqb lastHash (nth 0 parts EmptyString)); [reflexivity|].
    rewrite send_or_drop_full; [reflexivity|exact Hfull]. }
  split.
  { intros fp repoPath git id now w line. unfold checkRepo.
    destruct (git_log_parts git) as [parts|]; [|intros []].
    destruct (List.length parts <? 5)%nat; [intros []|].
    destruct (map_get repoPath (lastCommit w)) as [lastHash|]; [|intros []].
    destruct (String.eqb lastHash (nth 0 parts EmptyString)); [intros []|].
    rewrite send_or_drop_full; [|exact Hfull].
    cbn. intros [<-|[<-|[]]]; [left; eauto|right; reflexivity]. }
  split.
  { intros fp path fs id now. unfold FileWatcher_emitEvent.
    destruct (stat_size fs) as [size|]; [|reflexivity].
    rewrite send_or_drop_full; [reflexivity|exact Hfull]. }
  split.
  { intros fp path fs id now size Hsize. unfold FileWatcher_emitEvent.
    rewrite Hsize. rewrite send_or_drop_full; [reflexivity|exact Hfull]. }
  intros cmd id now. unfold TerminalWatcher_emitEvent.
  rewrite send_or_drop_full; [reflexivity|exact Hfull].
Qed.

Lemma C8_full_queue_drops_event_witness :
  chan_cap full_queue = eventQueueCapacity
  /\ Z.of_nat (List.length (chan_buf full_queue)) = 10000
  /\ try_send ex_event full_queue = None
  /\ TerminalWatcher_emitEvent "go test ./..." "01J9ZK3V8QEVT" 1700000000 full_queue
     = (full_queue,
        [LogTerminalEvent (truncate "go test ./..." 50); LogQueueFull "terminal"]).
Proof.
  assert (Hcap : chan_cap full_queue = eventQueueCapacity) by reflexivity.
  assert (Hlen : Z.of_nat (List.length (chan_buf full_queue)) = 10000)
    by (vm_compute; reflexivity).
  split; [exact Hcap|]. split; [exact Hlen|].
  destruct (C8_full_queue_drops_event full_queue Hcap Hlen)
    as (H1 & _ & _ & _ & _ & H6).
  split; [apply H1|apply H6].
Defined.

Lemma try_send_room event q :
  Z.of_nat (List.length (chan_buf q)) < chan_cap q ->
  try_send event q = Some (mkChan (chan_cap q) (chan_buf q ++ [event])).
Proof.
  intros H. unfold try_send.
  destruct (Z.ltb_spec (Z.of_nat (List.length (chan_buf q))) (chan_cap q)); [|lia].
  reflexivity.
Qed.

(** ** The flush on size *)

Lemma has_event_app id s row :
  has_event id (mkStore (memories s) (events s ++ [row]))
  = has_event id s || String.eqb (EventID (row_event row)) id.
Proof.
  unfold has_event. cbn. rewrite existsb_app. cbn. rewrite orb_false_r. reflexivity.
Qed.

(** The events received while the batch stays below its size are stored and
    appended to the batch; nothing is flushed. *)
Lemma processEvents_fill {X B : Type} `{Extractor X} `{Embedder B} cfg
    (extractor : X) (embedder : B) : forall msgs evs d,
  Forall2 (fun msg e => exists env, msg = Recv e env) msgs evs ->
  disp_returned d = false ->
  Z.of_nat (List.length (disp_batch d) + List.length evs) < BatchSize cfg ->
  NoDup (map EventID evs) ->
  (forall e, In e evs -> has_event (EventID e) (disp_store d) = false) ->
  processEvents cfg extractor embedder d msgs
  = mkDispatcher
      (mkStore (memories (disp_store d))
               (events (disp_store d) ++ map (fun e => mkEventRow e None) evs))
      (disp_batch d ++ evs) (disp_effects d) (disp_log d) false.
Proof.
  unfold processEvents.
  induction msgs as [|msg msgs IH]; intros evs d Hm Hret Hlen Hnd Hfresh;
    inversion Hm as [|? e ? evs' [env ->] Hm']; subst.
  - cbn. rewrite !app_nil_r. destruct d as [[ms es] b ef lg r]. cbn in *.
    subst. reflexivity.
  - cbn [fold_left]. unfold processEvents_step at 2. rewrite Hret.
    unfold CreateEvent. rewrite (Hfresh e (or_introl eq_refl)).
    cbn [List.length] in Hlen.
    destruct (Z.leb_spec (BatchSize cfg)
                (Z.of_nat (List.length (disp_batch d ++ [e])))) as [Hge|Hlt].
    { rewrite length_app in Hge. cbn in Hge. lia. }
    cbn in Hnd. inversion Hnd as [|? ? Hne Hnd']; subst.
    rewrite (IH evs'); cbn [disp_store disp_batch disp_effects disp_log
                               disp_returned memories events].
    + rewrite <- !app_assoc. reflexivity.
    + exact Hm'.
    + reflexivity.
    + rewrite length_app. cbn. lia.
    + exact Hnd'.
    + intros e' He'. rewrite has_event_app. cbn.
      rewrite (Hfresh e' (or_intror He')). cbn.
      apply String.eqb_neq. intros E. apply Hne. rewrite E.
      apply in_map. exact He'.
Qed.




(** The dispatcher at work: ten events in, one batch out, the model keeps
    one candidate, the ten events are marked. *)
Example dispatcher_run :
  let d := processEvents DefaultConfig ex_extractor mkNullEmbedder
             (dispatcher_start emptyStore) ex_msgs in
  List.length (memories (disp_store d)) = 1%nat
  /\ List.length (events (disp_store d)) = 10%nat
  /\ forallb (fun r => match processed_at r with Some _ => true | None => false end)
             (events (disp_store d)) = true.
Proof. vm_compute. repeat split. Qed.

(** ** The batches of the dispatcher are stored *)

Lemma processBatch_event_rows {X B : Type} `{Extractor X} `{Embedder B}
    (extractor : X) (embedder : B) env batch s :
  map row_event (events (fst (processBatch extractor embedder env batch s)))
  = map row_event (events s).
Proof.
  unfold processBatch. destruct (Extract extractor batch) as [extracted|err].
  - pose proof (create_memories_events embedder env extracted 0%nat s) as He.
    destruct (create_memories embedder env 0 extracted s) as [s1 lg].
    cbn [fst] in *. rewrite mark_processed_events, map_map, <- He.
    apply map_ext. intros r. apply mark_row_event.
  - cbn [fst]. rewrite mark_processed_events, map_map.
    apply map_ext. intros r. apply mark_row_event.
Qed.

(** Every event of the batch that the loop of [processEvents] holds has a
    row in [events]: every batch that the loop hands to [processBatch] is
    stored. *)
Lemma processEvents_step_stored {X B : Type} `{Extractor X} `{Embedder B} cfg
    (extractor : X) (embedder : B) d msg :
  stored (disp_batch d) (disp_store d) ->
  stored (disp_batch (processEvents_step cfg extractor embedder d msg))
         (disp_store (processEvents_step cfg extractor embedder d msg)).
Proof.
  intros Hd. unfold processEvents_step.
  destruct (disp_returned d); [exact Hd|].
  destruct msg as [env|event env|env].
  - destruct (disp_batch d) as [|e batch] eqn:Eb; [intros e []|].
    pose proof (processBatch_event_rows extractor embedder env (e :: batch)
                  (disp_store d)) as Hrows.
    destruct (processBatch extractor embedder env (e :: batch) (disp_store d))
      as [s' lg]. cbn in *.
    apply (stored_rows _ (disp_store d)); assumption.
  - destruct (CreateEvent event (disp_store d)) as [s1|err] eqn:E; [|exact Hd].
    apply CreateEvent_Ok in E. destruct E as (_ & ->).
    destruct (BatchSize cfg <=? _).
    + destruct (processBatch extractor embedder env (disp_batch d ++ [event]) _)
        as [s' lg]. cbn. intros e [].
    + cbn. apply (stored_app_row _ _ (mkEventRow event None)). exact Hd.
  - destruct (disp_batch d) as [|e batch] eqn:Eb.
    + cbn. intros e [].
    + destruct (processBatch extractor embedder env (e :: batch) (disp_store d))
        as [s' lg]. cbn. intros e' [].
Qed.

Lemma processEvents_stored {X B : Type} `{Extractor X} `{Embedder B} cfg
    (extractor : X) (embedder : B) msgs : forall d,
  stored (disp_batch d) (disp_store d) ->
  stored (disp_batch (processEvents cfg extractor embedder d msgs))
         (disp_store (processEvents cfg extractor embedder d msgs)).
Proof.
  unfold processEvents.
  induction msgs as [|msg msgs IH]; intros d Hd; cbn; [exact Hd|].
  apply IH. apply processEvents_step_stored. exact Hd.
Qed.

(** ** The scenarios of the spec, evaluated *)

Example recall_scenario :
  fst (Recall ex_marshal (env_clock ex_env) ex_all_request ex_AB_store)
  = [ex_B; ex_A]
  /\ map AccessCount
       (memories (snd (Recall ex_marshal (env_clock ex_env) ex_all_request
                         ex_AB_store)))
     = [1; 1]
  /\ Forall2 Qeq
       (map Importance
          (memories (snd (Recall ex_marshal (env_clock ex_env) ex_all_request
                            ex_AB_store))))
       [0.945%Q; 0.9975%Q].
Proof.
  split; [reflexivity|]. split; [reflexivity|].
  repeat constructor.
Qed.

Example remember_then_recall :
  fst (Recall ex_marshal (env_clock ex_env) ex_pkce_request ex_remembered_store)
  = [ex_remembered]
  /\ Confidence ex_remembered = 1.0%Q
  /\ SourceType (Source_ ex_remembered) = SourceTypeManual.
Proof. repeat split. Qed.

Example like_examples :
  like (searchTerm "pkce") "Use PKCE for mobile auth" = true
  /\ like (searchTerm "a_c") "xabcx" = true
  /\ like (searchTerm "oauth") "Use PKCE for mobile auth" = false
  /\ like "a%z" "a to z" = true.
Proof. repeat split. Qed.

(** * Properties of the rest of the code *)

(** ** Projects *)

Lemma conflicts_self p : conflicts p p = true.
Proof. unfold conflicts. rewrite String.eqb_refl. reflexivity. Qed.

Lemma find_app_none {A : Type} (f : A -> bool) l l' :
  find f l = None -> find f (l ++ l') = find f l'.
Proof.
  induction l as [|x l IH]; cbn; [reflexivity|].
  destruct (f x); [discriminate|exact IH].
Qed.

Lemma find_app_some {A : Type} (f : A -> bool) l l' x :
  find f l = Some x -> find f (l ++ l') = Some x.
Proof.
  induction l as [|y l IH]; cbn; [discriminate|].
  destruct (f y); [auto|exact IH].
Qed.

Lemma find_none_filter p path t :
  path = ProjPath p ->
  find (fun r => String.eqb (ProjPath r) path)
       (filter (fun r => negb (conflicts p r)) t) = None.
Proof.
  intros ->. induction t as [|x t IH]; cbn; [reflexivity|].
  unfold conflicts at 1.
  destruct (String.eqb_spec (ProjPath x) (ProjPath p)) as [E|E].
  - rewrite orb_true_r. cbn. exact IH.
  - destruct (String.eqb (ProjID x) (ProjID p)); cbn; [exact IH|].
    destruct (String.eqb_spec (ProjPath x) (ProjPath p)); [contradiction|exact IH].
Qed.

(** X1. A project upserted is found under its path, whatever the table
    held before, and upserting it a second time changes nothing. A lookup
    under another path finds what it found before, unless that project
    had the identifier of the project upserted. *)
Theorem CreateProject_then_lookup :
  forall (p : Project) (projects : list Project),
    GetProjectByPath (ProjPath p) (CreateProject p projects) = Some p
    /\ CreateProject p (CreateProject p projects) = CreateProject p projects
    /\ (forall path r,
          GetProjectByPath path projects = Some r ->
          path <> ProjPath p -> ProjID r <> ProjID p ->
          GetProjectByPath path (CreateProject p projects) = Some r)
    /\ (forall path,
          GetProjectByPath path projects = None ->
          path <> ProjPath p ->
          GetProjectByPath path (CreateProject p projects) = None).
Proof.
  intros p t. unfold GetProjectByPath, CreateProject.
  split; [|split; [|split]].
  - rewrite find_app_none; [|apply find_none_filter; reflexivity].
    cbn. rewrite String.eqb_refl. reflexivity.
  - rewrite filter_app. cbn. rewrite conflicts_self. cbn. rewrite app_nil_r.
    f_equal. induction t as [|x t IH]; cbn; [reflexivity|].
    destruct (conflicts p x) eqn:E; cbn; [exact IH|].
    rewrite E. cbn. f_equal. exact IH.
  - intros path r Hfind Hpath Hid.
    apply find_app_some.
    induction t as [|x t IH]; cbn in *; [discriminate|].
    destruct (String.eqb_spec (ProjPath x) path) as [E|E].
    + inversion Hfind; subst x. unfold conflicts.
      destruct (String.eqb_spec (ProjID r) (ProjID p)); [contradiction|].
      destruct (String.eqb_spec (ProjPath r) (ProjPath p)); [congruence|].
      cbn. rewrite E, String.eqb_refl. reflexivity.
    + destruct (conflicts p x); cbn; [auto|].
      destruct (String.eqb_spec (ProjPath x) path); [contradiction|auto].
  - intros path Hfind Hpath.
    rewrite find_app_none.
    + cbn. destruct (String.eqb_spec (ProjPath p) path); [congruence|reflexivity].
    + induction t as [|x t IH]; cbn in *; [reflexivity|].
      destruct (String.eqb_spec (ProjPath x) path) as [E|E]; [discriminate|].
      destruct (conflicts p x); cbn; [auto|].
      destruct (String.eqb_spec (ProjPath x) path); [contradiction|auto].
Qed.

(** X2. [CreateProject] keeps the keys of the table: when no two projects
    share an identifier or a path before, none do after. It deletes at most
    what stands in the way: a project registered under another path with
    the identifier of the project upserted is no longer found. *)
Theorem CreateProject_keeps_keys :
  forall (p : Project) (projects : list Project),
    projects_ok projects ->
    projects_ok (CreateProject p projects)
    /\ (forall r, In r projects ->
          ProjID r = ProjID p -> ProjPath r <> ProjPath p ->
          GetProjectByPath (ProjPath r) (CreateProject p projects) = None)
    /\ (forall r, In r projects -> conflicts p r = false ->
          In r (CreateProject p projects)).
Proof.
  intros p t [Hid Hpath]. unfold CreateProject.
  split; [|split].
  - split; rewrite map_app; cbn.
    + apply NoDup_app; [apply NoDup_map_filter; exact Hid
                       | constructor; [intros []|constructor] | ].
      intros a Ha [<-|[]]. apply in_map_iff in Ha.
      destruct Ha as (r & Hr & Hin). apply filter_In in Hin.
      destruct Hin as [_ Hc]. unfold conflicts in Hc. rewrite Hr in Hc.
      rewrite String.eqb_refl in Hc. discriminate.
    + apply NoDup_app; [apply NoDup_map_filter; exact Hpath
                       | constructor; [intros []|constructor] | ].
      intros a Ha [<-|[]]. apply in_map_iff in Ha.
      destruct Ha as (r & Hr & Hin). apply filter_In in Hin.
      destruct Hin as [_ Hc]. unfold conflicts in Hc. rewrite Hr in Hc.
      rewrite String.eqb_refl, orb_true_r in Hc. discriminate.
  - intros r Hin Hrid Hrpath. unfold GetProjectByPath.
    rewrite find_app_none.
    + cbn. destruct (String.eqb_spec (ProjPath p) (ProjPath r)); [congruence|reflexivity].
    + destruct (find _ (filter _ t)) as [x|] eqn:E; [|reflexivity].
      exfalso. apply find_some in E. destruct E as [Hx Ex].
      apply String.eqb_eq in Ex. apply filter_In in Hx. destruct Hx as [Hx Hc].
      assert (x = r) by (apply (NoDup_map_inj ProjPath t); auto).
      subst x. unfold conflicts in Hc. rewrite Hrid, String.eqb_refl in Hc.
      discriminate.
  - intros r Hin Hc. apply in_or_app. left. apply filter_In.
    split; [exact Hin|]. rewrite Hc. reflexivity.
Qed.

Lemma CreateProject_keeps_keys_witness :
  projects_ok [ex_project]
  /\ projects_ok (CreateProject ex_project [ex_project]).
Proof.
  assert (H : projects_ok [ex_project]).
  { split; cbn; (constructor; [intros []|constructor]). }
  split; [exact H|].
  exact (proj1 (CreateProject_keeps_keys ex_project [ex_project] H)).
Defined.

(** ** Statistics *)

Lemma by_type_map_in (f : string -> Z) (l : list string) t :
  In t l -> by_type (map (fun k => (k, f k)) l) t = f t.
Proof.
  induction l as [|k l IH]; cbn; [contradiction|].
  intros Hin. destruct (String.eqb_spec k t) as [E|E]; [subst; reflexivity|].
  destruct Hin as [Hin|Hin]; [contradiction|auto].
Qed.

Lemma by_type_map_out (f : string -> Z) (l : list string) t :
  ~ In t l -> by_type (map (fun k => (k, f k)) l) t = 0.
Proof.
  induction l as [|k l IH]; cbn; [reflexivity|].
  intros Hin. destruct (String.eqb_spec k t) as [E|E]; [tauto|].
  apply IH. tauto.
Qed.

Lemma count_by_type_at l t :
  by_type (count_by_type l) t = Z.of_nat (count_occ string_dec (map Type_ l) t).
Proof.
  unfold count_by_type.
  destruct (in_dec string_dec t (nodup string_dec (map Type_ l))) as [H|H].
  - apply (by_type_map_in
             (fun k => Z.of_nat (count_occ string_dec (map Type_ l) k))).
    exact H.
  - rewrite (by_type_map_out
               (fun k => Z.of_nat (count_occ string_dec (map Type_ l) k)));
      [|exact H].
    rewrite nodup_In in H. apply (count_occ_not_In string_dec) in H.
    rewrite H. reflexivity.
Qed.

Lemma sumZ_cons {A : Type} (f : A -> Z) a l : sumZ f (a :: l) = f a + sumZ f l.
Proof. reflexivity. Qed.

Lemma sumZ_zero (t0 : string) (T : list string) :
  ~ In t0 T -> sumZ (fun t => if string_dec t0 t then 1 else 0) T = 0.
Proof.
  induction T as [|u T IH]; intros Hin; [reflexivity|].
  rewrite sumZ_cons. destruct (string_dec t0 u) as [->|_].
  - exfalso. apply Hin. left. reflexivity.
  - rewrite IH; [reflexivity|]. intros H. apply Hin. right. exact H.
Qed.

Lemma sumZ_indicator (t0 : string) (T : list string) :
  NoDup T -> In t0 T ->
  sumZ (fun t => if string_dec t0 t then 1 else 0) T = 1.
Proof.
  induction T as [|t T IH]; intros Hnd Hin; [contradiction|].
  inversion Hnd as [|? ? Ht HT]; subst. rewrite sumZ_cons.
  destruct (string_dec t0 t) as [E|E].
  - subst. rewrite (sumZ_zero t T Ht). reflexivity.
  - destruct Hin as [Hin|Hin]; [congruence|].
    rewrite (IH HT Hin). reflexivity.
Qed.

Lemma sumZ_count (T : list string) (l : list string) :
  NoDup T -> (forall x, In x l -> In x T) ->
  sumZ (fun t => Z.of_nat (count_occ string_dec l t)) T = Z.of_nat (List.length l).
Proof.
  intros Hnd. induction l as [|x l IH]; intros Hin.
  - cbn [count_occ List.length]. clear Hnd Hin.
    induction T as [|t T IHT]; [reflexivity|].
    rewrite sumZ_cons, IHT. reflexivity.
  - assert (Hsplit : forall T',
        sumZ (fun t => Z.of_nat (count_occ string_dec (x :: l) t)) T'
        = sumZ (fun t => if string_dec x t then 1 else 0) T'
          + sumZ (fun t => Z.of_nat (count_occ string_dec l t)) T').
    { induction T' as [|t T' IHT']; [reflexivity|].
      rewrite !sumZ_cons, IHT'. cbn [count_occ].
      destruct (string_dec x t); lia. }
    rewrite Hsplit, IH, sumZ_indicator.
    + cbn [List.length]. lia.
    + exact Hnd.
    + apply Hin. left. reflexivity.
    + intros y Hy. apply Hin. right. exact Hy.
Qed.

(** The type of every memory of a reachable store is one of the six of the
    schema. *)
Lemma reachable_types (G : ExtractedMemory -> Prop) s :
  reachable G s -> Forall (fun m => In (Type_ m) memory_types) (memories s).
Proof.
  intros H.
  induction H as [ | s s' id ty c tp now _ IH Hc | s s' id now ext _ IH Hg Ha Hc
                 | s id v _ IH | s now id _ IH | s now _ IH
                 | s s' e _ IH Hc | s now id _ IH ].
  - constructor.
  - apply CreateMemory_Ok in Hc. destruct Hc as (_ & Ht & _ & ->). cbn.
    apply Forall_app. split; [exact IH|]. constructor; [|constructor].
    apply str_in_In in Ht. exact Ht.
  - apply CreateMemory_Ok in Hc. destruct Hc as (_ & Ht & _ & ->). cbn.
    apply Forall_app. split; [exact IH|]. constructor; [|constructor].
    apply str_in_In in Ht. exact Ht.
  - cbn. apply Forall_map. revert IH. apply Forall_impl. intros m Hm.
    destruct (String.eqb (ID m) id); exact Hm.
  - cbn. apply Forall_map. revert IH. apply Forall_impl. intros m Hm.
    destruct (String.eqb (ID m) id); exact Hm.
  - cbn. apply Forall_map. revert IH. apply Forall_impl. intros m Hm.
    destruct (decay_selects now m); exact Hm.
  - apply CreateEvent_Ok in Hc. destruct Hc as (_ & ->). exact IH.
  - exact IH.
Qed.

(** X3. On a store that the program can reach, the statistics add up: the
    count that [GetStats] reports for a type is the number of memories of
    that type, the counts of the six types of the schema (the six lines
    that [status] prints) sum to the total, and the daemon is reported as
    not running, for [GetStats] never assigns that field. *)
Theorem GetStats_counts_add_up :
  forall (G : ExtractedMemory -> Prop) (s : Store) (projects : list Project),
    reachable G s ->
    (forall t,
        by_type (ByType (GetStats s projects)) t
        = Z.of_nat (List.length (filter (fun m => String.eqb (Type_ m) t) (memories s))))
    /\ sumZ (by_type (ByType (GetStats s projects))) memory_types
       = TotalMemories (GetStats s projects)
    /\ ProjectCount (GetStats s projects) = Z.of_nat (List.length projects)
    /\ DaemonRunning (GetStats s projects) = false.
Proof.
  intros G s projects Hs. cbn [GetStats ByType TotalMemories ProjectCount DaemonRunning].
  split; [|split; [|split; reflexivity]].
  - intros t. rewrite count_by_type_at. f_equal.
    induction (memories s) as [|m l IH]; cbn; [reflexivity|].
    destruct (string_dec (Type_ m) t) as [E|E].
    + rewrite (proj2 (String.eqb_eq _ _) E). cbn. f_equal. exact IH.
    + rewrite (proj2 (String.eqb_neq _ _) E). exact IH.
  - assert (Hext : forall T,
      sumZ (by_type (count_by_type (memories s))) T
      = sumZ (fun t => Z.of_nat (count_occ string_dec (map Type_ (memories s)) t)) T).
    { induction T as [|t T IHT]; [reflexivity|].
      rewrite !sumZ_cons, count_by_type_at, IHT. reflexivity. }
    rewrite Hext, sumZ_count.
    + rewrite length_map. reflexivity.
    + unfold memory_types.
      repeat (constructor;
              [intros Hin; cbn in Hin;
               repeat (destruct Hin as [Hin|Hin]; [discriminate Hin|]);
               exact Hin|]).
      constructor.
    + intros x Hx. apply in_map_iff in Hx. destruct Hx as (m & <- & Hm).
      pose proof (reachable_types G s Hs) as Ht. rewrite Forall_forall in Ht.
      apply Ht. exact Hm.
Qed.

Lemma GetStats_counts_add_up_witness :
  reachable any_candidate ex_remembered_store
  /\ sumZ (by_type (ByType (GetStats ex_remembered_store [ex_project]))) memory_types
     = TotalMemories (GetStats ex_remembered_store [ex_project]).
Proof.
  assert (Hr : reachable any_candidate ex_remembered_store).
  { apply rememberCmd_reachable. apply reach_new. }
  split; [exact Hr|].
  exact (proj1 (proj2 (GetStats_counts_add_up any_candidate ex_remembered_store
                         [ex_project] Hr))).
Defined.

(** ** Unprocessed events *)

Lemma insert_by_time_perm r l : Permutation (insert_by_time r l) (r :: l).
Proof.
  induction l as [|x l IH]; cbn; [reflexivity|].
  destruct (_ <=? _); [reflexivity|].
  rewrite IH. apply perm_swap.
Qed.

Lemma order_by_time_perm l : Permutation (order_by_time l) l.
Proof.
  induction l as [|r l IH]; cbn; [reflexivity|].
  rewrite insert_by_time_perm. constructor. exact IH.
Qed.

Lemma insert_by_time_sorted r l :
  StronglySorted
    (fun a b => EventTimestamp (row_event a) <= EventTimestamp (row_event b)) l ->
  StronglySorted
    (fun a b => EventTimestamp (row_event a) <= EventTimestamp (row_event b))
    (insert_by_time r l).
Proof.
  induction l as [|x l IH]; cbn; intros Hs.
  - constructor; constructor.
  - inversion Hs as [|? ? Hl Hx]; subst.
    destruct (Z.leb_spec (EventTimestamp (row_event r))
                         (EventTimestamp (row_event x))) as [E|E].
    + constructor; [exact Hs|]. constructor; [exact E|].
      revert Hx. apply Forall_impl. intros y Hy. lia.
    + constructor; [apply IH; exact Hl|].
      rewrite Forall_forall. intros y Hy.
      apply (Permutation_in _ (insert_by_time_perm r l)) in Hy.
      destruct Hy as [<-|Hy]; [lia|].
      rewrite Forall_forall in Hx. apply Hx. exact Hy.
Qed.

Lemma order_by_time_sorted l :
  StronglySorted
    (fun a b => EventTimestamp (row_event a) <= EventTimestamp (row_event b))
    (order_by_time l).
Proof.
  induction l as [|r l IH]; cbn; [constructor|].
  apply insert_by_time_sorted. exact IH.
Qed.

Lemma sql_limit_incl {A : Type} limit (l : list A) x :
  In x (sql_limit limit l) -> In x l.
Proof.
  unfold sql_limit. destruct (limit <? 0); [auto|].
  intros H. rewrite <- (firstn_skipn (Z.to_nat limit) l).
  apply in_or_app. left. exact H.
Qed.

Lemma sql_limit_sorted {A : Type} (R : A -> A -> Prop) limit l :
  StronglySorted R l -> StronglySorted R (sql_limit limit l).
Proof.
  unfold sql_limit. destruct (limit <? 0); [auto|].
  apply StronglySorted_firstn.
Qed.

Lemma StronglySorted_map {A B : Type} (R : A -> A -> Prop) (R' : B -> B -> Prop)
    (f : A -> B) l :
  (forall a b, R a b -> R' (f a) (f b)) ->
  StronglySorted R l -> StronglySorted R' (map f l).
Proof.
  intros HR. induction 1 as [|x l Hl IH Hx]; cbn; constructor; [exact IH|].
  apply Forall_map. revert Hx. apply Forall_impl. intros y. apply HR.
Qed.

Lemma unprocessed_iff r : unprocessed r = true <-> processed_at r = None.
Proof. unfold unprocessed. destruct (processed_at r); split; congruence. Qed.

(** X4. [GetUnprocessedEvents] returns events of rows that are not marked
    processed, and only those, oldest first, at most [limit] of them; a
    limit of 0 returns nothing, and a negative limit is no limit: every
    unprocessed event is returned. *)
Theorem GetUnprocessedEvents_result :
  forall (reload : list (string * Value) -> list (string * Value))
         (limit : Z) (s : Store),
    Forall
      (fun e => exists row,
           In row (events s) /\ processed_at row = None
           /\ e = scan_event reload row)
      (GetUnprocessedEvents reload limit s)
    /\ StronglySorted (fun a b => EventTimestamp a <= EventTimestamp b)
         (GetUnprocessedEvents reload limit s)
    /\ (0 <= limit ->
        Z.of_nat (List.length (GetUnprocessedEvents reload limit s)) <= limit)
    /\ (limit < 0 ->
        forall row, In row (events s) -> processed_at row = None ->
                    In (scan_event reload row) (GetUnprocessedEvents reload limit s)).
Proof.
  intros reload limit s. unfold GetUnprocessedEvents.
  split; [|split; [|split]].
  - apply Forall_map. apply Forall_forall. intros row Hrow.
    apply sql_limit_incl in Hrow.
    apply (Permutation_in _ (order_by_time_perm _)) in Hrow.
    apply filter_In in Hrow. destruct Hrow as [Hin Hu].
    exists row. split; [exact Hin|]. split; [|reflexivity].
    apply unprocessed_iff. exact Hu.
  - apply (StronglySorted_map
             (fun a b => EventTimestamp (row_event a) <= EventTimestamp (row_event b))).
    + intros a b H. exact H.
    + apply sql_limit_sorted. apply order_by_time_sorted.
  - intros Hl. rewrite length_map. unfold sql_limit.
    destruct (Z.ltb_spec limit 0); [lia|].
    pose proof (firstn_le_length (Z.to_nat limit)
                  (order_by_time (filter unprocessed (events s)))). lia.
  - intros Hl row Hin Hnone. apply in_map. unfold sql_limit.
    destruct (Z.ltb_spec limit 0); [|lia].
    apply (Permutation_in _ (Permutation_sym (order_by_time_perm _))).
    apply filter_In. split; [exact Hin|]. apply unprocessed_iff. exact Hnone.
Qed.

(** ** The dispatcher *)

Lemma flushed_app l l' : flushed (l ++ l') = flushed l ++ flushed l'.
Proof. unfold flushed. apply flat_map_app. Qed.

Lemma processBatch_all_processed {X B : Type} `{Extractor X} `{Embedder B}
    (extractor : X) (embedder : B) env batch s done :
  events s = done ++ map fresh_row batch ->
  all_processed done ->
  all_processed (events (fst (processBatch extractor embedder env batch s))).
Proof.
  intros Hev Hdone.
  assert (Hmark : forall i s1, events s1 = events s ->
            all_processed (events (mark_processed (env_clock env) i batch s1))).
  { intros i s1 Hs1. rewrite mark_processed_events, Hs1, Hev.
    unfold all_processed. apply Forall_map. apply Forall_app. split.
    - revert Hdone. apply Forall_impl. intros r. apply mark_row_keeps.
    - apply Forall_map. apply Forall_forall. intros e He.
      apply mark_row_marks. cbn. apply in_map. exact He. }
  unfold processBatch. destruct (Extract extractor batch) as [extracted|err].
  - pose proof (create_memories_events embedder env extracted 0%nat s) as He.
    destruct (create_memories embedder env 0 extracted s) as [s1 lg].
    cbn [fst] in *. apply Hmark. exact He.
  - cbn [fst]. apply Hmark. reflexivity.
Qed.

(** The rows of [events] are the rows processed followed by the rows of
    the events that wait in the batch. *)
Lemma processEvents_step_rows {X B : Type} `{Extractor X} `{Embedder B} cfg
    (extractor : X) (embedder : B) d msg :
  (exists done, events (disp_store d) = done ++ map fresh_row (waiting d)
                /\ all_processed done) ->
  exists done,
    events (disp_store (processEvents_step cfg extractor embedder d msg))
    = done ++ map fresh_row (waiting (processEvents_step cfg extractor embedder d msg))
    /\ all_processed done.
Proof.
  intros (done & Hev & Hdone). unfold processEvents_step, waiting in *.
  destruct (disp_returned d) eqn:Hret; [exists done; cbn; rewrite Hret; auto|].
  destruct msg as [env|event env|env].
  - destruct (disp_batch d) as [|e batch] eqn:Eb.
    + cbn. exists done. auto.
    + pose proof (processBatch_all_processed extractor embedder env (e :: batch)
                    (disp_store d) done Hev Hdone) as Hall.
      destruct (processBatch extractor embedder env (e :: batch) (disp_store d))
        as [s' lg]. cbn in *.
      exists (events s'). rewrite app_nil_r. auto.
  - destruct (CreateEvent event (disp_store d)) as [s1|err] eqn:E.
    + apply CreateEvent_Ok in E. destruct E as (_ & ->).
      assert (Hev1 : events (mkStore (memories (disp_store d))
                               (events (disp_store d) ++ [mkEventRow event None]))
                     = done ++ map fresh_row (disp_batch d ++ [event])).
      { cbn. rewrite Hev, map_app, <- app_assoc. reflexivity. }
      destruct (BatchSize cfg <=? _).
      * pose proof (processBatch_all_processed extractor embedder env
                      (disp_batch d ++ [event]) _ done Hev1 Hdone) as Hall.
        destruct (processBatch extractor embedder env (disp_batch d ++ [event]) _)
          as [s' lg]. cbn in *.
        exists (events s'). rewrite app_nil_r. auto.
      * cbn. exists done. cbn in Hev1. auto.
    + cbn. exists done. auto.
  - destruct (disp_batch d) as [|e batch] eqn:Eb.
    + cbn. exists done. auto.
    + pose proof (processBatch_all_processed extractor embedder env (e :: batch)
                    (disp_store d) done Hev Hdone) as Hall.
      destruct (processBatch extractor embedder env (e :: batch) (disp_store d))
        as [s' lg]. cbn in *.
      exists (events s'). rewrite app_nil_r. auto.
Qed.

Lemma processEvents_rows {X B : Type} `{Extractor X} `{Embedder B} cfg
    (extractor : X) (embedder : B) msgs : forall d,
  (exists done, events (disp_store d) = done ++ map fresh_row (waiting d)
                /\ all_processed done) ->
  exists done,
    events (disp_store (processEvents cfg extractor embedder d msgs))
    = done ++ map fresh_row (waiting (processEvents cfg extractor embedder d msgs))
    /\ all_processed done.
Proof.
  unfold processEvents.
  induction msgs as [|msg msgs IH]; intros d Hd; cbn; [exact Hd|].
  apply IH. apply processEvents_step_rows. exact Hd.
Qed.

Lemma filter_unprocessed_done done :
  all_processed done -> filter unprocessed done = [].
Proof.
  induction 1 as [|r l Hr _ IH]; cbn; [reflexivity|].
  unfold unprocessed at 1. destruct (processed_at r); [exact IH|contradiction].
Qed.

Lemma filter_unprocessed_fresh batch :
  filter unprocessed (map fresh_row batch) = map fresh_row batch.
Proof.
  induction batch as [|e batch IH]; cbn; [reflexivity|].
  rewrite IH. reflexivity.
Qed.

(** X5. The recovery query sees the batch in progress, and nothing else.
    When the dispatcher starts on a store whose events are all processed,
    then after any run of its loop the events that [GetUnprocessedEvents]
    returns (without a limit) are the events that wait in the batch; once
    the loop has returned after the shutdown signal, the query returns
    nothing, whatever its limit. *)
Theorem unprocessed_events_are_the_batch :
  forall (X B : Type) (EX : Extractor X) (EB : Embedder B) (cfg : Config)
         (extractor : X) (embedder : B)
         (reload : list (string * Value) -> list (string * Value))
         (s : Store) (msgs : list Msg),
    all_processed (events s) ->
    (forall e,
        In e (GetUnprocessedEvents reload (-1)
                (disp_store (processEvents cfg extractor embedder
                               (dispatcher_start s) msgs)))
        <-> exists e0,
              In e0 (waiting (processEvents cfg extractor embedder
                                (dispatcher_start s) msgs))
              /\ e = scan_event reload (fresh_row e0))
    /\ (disp_returned (processEvents cfg extractor embedder
                         (dispatcher_start s) msgs) = true ->
        forall limit,
          GetUnprocessedEvents reload limit
            (disp_store (processEvents cfg extractor embedder
                           (dispatcher_start s) msgs)) = []).
Proof.
  intros X B EX EB cfg extractor embedder reload s msgs Hs.
  destruct (processEvents_rows cfg extractor embedder msgs (dispatcher_start s))
    as (done & Hev & Hdone).
  { exists (events s). cbn. rewrite app_nil_r. auto. }
  set (d := processEvents cfg extractor embedder (dispatcher_start s) msgs) in *.
  assert (Hf : filter unprocessed (events (disp_store d))
               = map fresh_row (waiting d)).
  { rewrite Hev, filter_app, filter_unprocessed_done, filter_unprocessed_fresh;
      [reflexivity|exact Hdone]. }
  split.
  - intros e. unfold GetUnprocessedEvents, sql_limit. cbn [Z.ltb Z.compare].
    rewrite Hf. rewrite in_map_iff. split.
    + intros (row & <- & Hrow).
      apply (Permutation_in _ (order_by_time_perm _)) in Hrow.
      apply in_map_iff in Hrow. destruct Hrow as (e0 & <- & He0). eauto.
    + intros (e0 & He0 & ->). exists (fresh_row e0). split; [reflexivity|].
      apply (Permutation_in _ (Permutation_sym (order_by_time_perm _))).
      apply in_map. exact He0.
  - intros Hret limit. unfold GetUnprocessedEvents. rewrite Hf.
    unfold waiting. rewrite Hret. cbn. unfold sql_limit.
    destruct (limit <? 0); [reflexivity|]. rewrite firstn_nil. reflexivity.
Qed.

Lemma unprocessed_events_are_the_batch_witness :
  all_processed (events emptyStore)
  /\ (disp_returned (processEvents DefaultConfig ex_extractor mkNullEmbedder
                       (dispatcher_start emptyStore) (ex_msgs ++ [CtxDone ex_env]))
      = true ->
      forall limit,
        GetUnprocessedEvents (fun data => data) limit
          (disp_store (processEvents DefaultConfig ex_extractor mkNullEmbedder
                         (dispatcher_start emptyStore)
                         (ex_msgs ++ [CtxDone ex_env]))) = []).
Proof.
  assert (H : all_processed (events emptyStore)) by constructor.
  split; [exact H|].
  exact (proj2 (unprocessed_events_are_the_batch OllamaExtractor NullEmbedder _ _
                  DefaultConfig ex_extractor mkNullEmbedder (fun data => data)
                  emptyStore (ex_msgs ++ [CtxDone ex_env]) H)).
Defined.

Lemma processEvents_step_conserves {X B : Type} `{Extractor X} `{Embedder B} cfg
    (extractor : X) (embedder : B) base d msg :
  map row_event (events (disp_store d))
  = base ++ flushed (disp_effects d) ++ waiting d ->
  map row_event (events (disp_store (processEvents_step cfg extractor embedder d msg)))
  = base ++ flushed (disp_effects (processEvents_step cfg extractor embedder d msg))
         ++ waiting (processEvents_step cfg extractor embedder d msg).
Proof.
  intros Hd. unfold processEvents_step, waiting in *.
  destruct (disp_returned d) eqn:Hret; [cbn; rewrite Hret; exact Hd|].
  destruct msg as [env|event env|env].
  - destruct (disp_batch d) as [|e batch] eqn:Eb.
    + cbn. exact Hd.
    + pose proof (processBatch_event_rows extractor embedder env (e :: batch)
                    (disp_store d)) as Hrows.
      destruct (processBatch extractor embedder env (e :: batch) (disp_store d))
        as [s' lg]. cbn in *.
      rewrite Hrows, Hd, flushed_app. cbn. rewrite !app_nil_r. reflexivity.
  - destruct (CreateEvent event (disp_store d)) as [s1|err] eqn:E.
    + apply CreateEvent_Ok in E. destruct E as (_ & ->).
      destruct (BatchSize cfg <=? _).
      * pose proof (processBatch_event_rows extractor embedder env
                      (disp_batch d ++ [event])
                      (mkStore (memories (disp_store d))
                         (events (disp_store d) ++ [mkEventRow event None])))
          as Hrows.
        destruct (processBatch extractor embedder env (disp_batch d ++ [event]) _)
          as [s' lg]. cbn in *.
        rewrite Hrows, map_app, Hd, flushed_app. cbn.
        rewrite !app_nil_r, <- !app_assoc. reflexivity.
      * cbn. rewrite map_app, Hd. cbn. rewrite <- !app_assoc. reflexivity.
    + cbn. exact Hd.
  - destruct (disp_batch d) as [|e batch] eqn:Eb.
    + cbn. rewrite flushed_app. cbn. rewrite !app_nil_r in *. exact Hd.
    + pose proof (processBatch_event_rows extractor embedder env (e :: batch)
                    (disp_store d)) as Hrows.
      destruct (processBatch extractor embedder env (e :: batch) (disp_store d))
        as [s' lg]. cbn in *.
      rewrite Hrows, Hd, flushed_app. cbn. rewrite !app_nil_r. reflexivity.
Qed.

(** X6. The dispatcher neither loses, repeats nor reorders an event that
    it stored: after any run of the loop, the events of table [events] are
    those that the store held at the start, followed by the events handed
    to [processBatch] (the batches one after the other), followed by the
    events that wait in the batch, all in the order of arrival. *)
Theorem dispatcher_conserves_events :
  forall (X B : Type) (EX : Extractor X) (EB : Embedder B) (cfg : Config)
         (extractor : X) (embedder : B) (s : Store) (msgs : list Msg),
    map row_event
        (events (disp_store (processEvents cfg extractor embedder
                               (dispatcher_start s) msgs)))
    = map row_event (events s)
      ++ flushed (disp_effects (processEvents cfg extractor embedder
                                  (dispatcher_start s) msgs))
      ++ waiting (processEvents cfg extractor embedder (dispatcher_start s) msgs).
Proof.
  intros X B EX EB cfg extractor embedder s msgs.
  assert (Hgen : forall d,
    map row_event (events (disp_store d))
    = map row_event (events s) ++ flushed (disp_effects d) ++ waiting d ->
    map row_event (events (disp_store (processEvents cfg extractor embedder d msgs)))
    = map row_event (events s)
      ++ flushed (disp_effects (processEvents cfg extractor embedder d msgs))
      ++ waiting (processEvents cfg extractor embedder d msgs)).
  { unfold processEvents. induction msgs as [|msg msgs IH]; intros d Hd; cbn.
    - exact Hd.
    - apply IH. apply processEvents_step_conserves. exact Hd. }
  apply Hgen. cbn. rewrite app_nil_r. reflexivity.
Qed.

Lemma processEvents_step_sizes {X B : Type} `{Extractor X} `{Embedder B} cfg
    (extractor : X) (embedder : B) d msg :
  0 < BatchSize cfg ->
  Z.of_nat (List.length (disp_batch d)) < BatchSize cfg
  /\ Forall (well_sized (BatchSize cfg)) (disp_effects d) ->
  Z.of_nat (List.length
              (disp_batch (processEvents_step cfg extractor embedder d msg)))
  < BatchSize cfg
  /\ Forall (well_sized (BatchSize cfg))
            (disp_effects (processEvents_step cfg extractor embedder d msg)).
Proof.
  intros Hpos [Hlen Heff]. unfold processEvents_step.
  destruct (disp_returned d); [auto|].
  destruct msg as [env|event env|env].
  - destruct (disp_batch d) as [|e batch] eqn:Eb; [cbn; auto|].
    destruct (processBatch extractor embedder env (e :: batch) (disp_store d))
      as [s' lg]. cbn [disp_batch disp_effects]. split; [exact Hlen|].
    apply Forall_app. split; [exact Heff|]. constructor; [|constructor].
    cbn in *. lia.
  - destruct (CreateEvent event (disp_store d)) as [s1|err]; [|cbn; auto].
    destruct (Z.leb_spec (BatchSize cfg)
                (Z.of_nat (List.length (disp_batch d ++ [event])))) as [Hge|Hlt].
    + destruct (processBatch extractor embedder env (disp_batch d ++ [event]) s1)
        as [s' lg]. cbn [disp_batch disp_effects]. split; [cbn; lia|].
      apply Forall_app. split; [exact Heff|].
      constructor; [|constructor; [exact I|constructor]].
      cbn. rewrite length_app in *. cbn in *. lia.
    + cbn. auto.
  - destruct (disp_batch d) as [|e batch] eqn:Eb.
    + cbn. split; [lia|]. apply Forall_app. split; [exact Heff|].
      constructor; [exact I|constructor].
    + destruct (processBatch extractor embedder env (e :: batch) (disp_store d))
        as [s' lg]. cbn [disp_batch disp_effects]. split; [cbn; lia|].
      apply Forall_app. split; [exact Heff|].
      constructor; [|constructor; [exact I|constructor]].
      cbn in *. lia.
Qed.

(** X7. With a positive batch size, the batch of the dispatcher always
    holds fewer than [BatchSize] events, and every call of [processBatch]
    that the loop makes is on at least one and at most [BatchSize] events:
    the extractor is never called on an empty batch by the loop. *)
Theorem dispatcher_batch_sizes :
  forall (X B : Type) (EX : Extractor X) (EB : Embedder B) (cfg : Config)
         (extractor : X) (embedder : B) (s : Store) (msgs : list Msg),
    0 < BatchSize cfg ->
    Z.of_nat (List.length
                (disp_batch (processEvents cfg extractor embedder
                               (dispatcher_start s) msgs)))
    < BatchSize cfg
    /\ Forall (well_sized (BatchSize cfg))
              (disp_effects (processEvents cfg extractor embedder
                               (dispatcher_start s) msgs)).
Proof.
  intros X B EX EB cfg extractor embedder s msgs Hpos.
  assert (Hgen : forall d,
    Z.of_nat (List.length (disp_batch d)) < BatchSize cfg
    /\ Forall (well_sized (BatchSize cfg)) (disp_effects d) ->
    Z.of_nat (List.length (disp_batch (processEvents cfg extractor embedder d msgs)))
    < BatchSize cfg
    /\ Forall (well_sized (BatchSize cfg))
              (disp_effects (processEvents cfg extractor embedder d msgs))).
  { unfold processEvents. induction msgs as [|msg msgs IH]; intros d Hd; cbn.
    - exact Hd.
    - apply IH. apply processEvents_step_sizes; assumption. }
  apply Hgen. cbn. split; [exact Hpos|constructor].
Qed.

Lemma dispatcher_batch_sizes_witness :
  0 < BatchSize DefaultConfig
  /\ Z.of_nat (List.length
                 (disp_batch (processEvents DefaultConfig ex_extractor mkNullEmbedder
                                (dispatcher_start emptyStore) ex_msgs)))
     < BatchSize DefaultConfig
  /\ Forall (well_sized (BatchSize DefaultConfig))
            (disp_effects (processEvents DefaultConfig ex_extractor mkNullEmbedder
                             (dispatcher_start emptyStore) ex_msgs)).
Proof.
  assert (Hpos : 0 < BatchSize DefaultConfig) by reflexivity.
  split; [exact Hpos|].
  exact (dispatcher_batch_sizes OllamaExtractor NullEmbedder _ _ DefaultConfig
           ex_extractor mkNullEmbedder emptyStore ex_msgs Hpos).
Defined.

Lemma processEvents_returned {X B : Type} `{Extractor X} `{Embedder B} cfg
    (extractor : X) (embedder : B) msgs : forall d,
  disp_returned d = true -> processEvents cfg extractor embedder d msgs = d.
Proof.
  unfold processEvents.
  induction msgs as [|msg msgs IH]; intros d Hd; cbn; [reflexivity|].
  unfold processEvents_step at 2. rewrite Hd. apply IH. exact Hd.
Qed.

(** X8. Flush on time. From an empty batch, fewer than [BatchSize] events
    received in a row (at least one, stored under identifiers that are new
    and distinct) and then a firing of the timer make the loop call
    [processBatch] exactly once, on these events in the order received,
    and reset the timer; the batch is empty again. *)
Theorem flush_on_time :
  forall (X B : Type) (EX : Extractor X) (EB : Embedder B) (cfg : Config)
         (extractor : X) (embedder : B) (d : Dispatcher)
         (msgs : list Msg) (evs : list Event) (env : Env),
    disp_returned d = false ->
    disp_batch d = [] ->
    evs <> [] ->
    Z.of_nat (List.length evs) < BatchSize cfg ->
    Forall2 (fun msg e => exists env', msg = Recv e env') msgs evs ->
    NoDup (map EventID evs) ->
    (forall e, In e evs -> has_event (EventID e) (disp_store d) = false) ->
    disp_effects (processEvents cfg extractor embedder d (msgs ++ [TimerFired env]))
    = disp_effects d ++ [CallProcessBatch evs; TimerReset]
    /\ disp_batch (processEvents cfg extractor embedder d (msgs ++ [TimerFired env]))
       = []
    /\ disp_returned
         (processEvents cfg extractor embedder d (msgs ++ [TimerFired env]))
       = false.
Proof.
  intros X B EX EB cfg extractor embedder d msgs evs env
         Hret Hbatch Hne Hlen Hm Hnd Hfresh.
  unfold processEvents. rewrite fold_left_app.
  fold (processEvents cfg extractor embedder d msgs).
  rewrite (processEvents_fill cfg extractor embedder msgs evs d Hm Hret);
    [|rewrite Hbatch; cbn; lia|exact Hnd|exact Hfresh].
  cbn [fold_left]. unfold processEvents_step.
  cbn [disp_returned disp_store disp_batch disp_effects disp_log].
  rewrite Hbatch. cbn [app].
  destruct evs as [|e evs]; [contradiction Hne; reflexivity|].
  destruct (processBatch extractor embedder env (e :: evs) _) as [s' lg].
  cbn. auto.
Qed.

Lemma flush_on_time_witness :
  disp_effects (processEvents DefaultConfig ex_extractor mkNullEmbedder
                  (dispatcher_start emptyStore)
                  ([Recv ex_event ex_env] ++ [TimerFired ex_env]))
  = disp_effects (dispatcher_start emptyStore)
    ++ [CallProcessBatch [ex_event]; TimerReset]
  /\ disp_batch (processEvents DefaultConfig ex_extractor mkNullEmbedder
                   (dispatcher_start emptyStore)
                   ([Recv ex_event ex_env] ++ [TimerFired ex_env]))
     = []
  /\ disp_returned (processEvents DefaultConfig ex_extractor mkNullEmbedder
                      (dispatcher_start emptyStore)
                      ([Recv ex_event ex_env] ++ [TimerFired ex_env]))
     = false.
Proof.
  apply (flush_on_time OllamaExtractor NullEmbedder _ _ DefaultConfig
           ex_extractor mkNullEmbedder (dispatcher_start emptyStore)
           [Recv ex_event ex_env] [ex_event] ex_env).
  - reflexivity.
  - reflexivity.
  - discriminate.
  - reflexivity.
  - constructor; [exists ex_env; reflexivity|constructor].
  - constructor; [intros []|constructor].
  - intros e _. reflexivity.
Defined.

(** X9. Shutdown. On the shutdown signal a loop that runs hands the batch
    in progress to [processBatch] once (nothing when the batch is empty,
    in which case the store is untouched), does not reset the timer, and
    returns: whatever arrives afterwards changes nothing. *)
Theorem shutdown_flushes_once :
  forall (X B : Type) (EX : Extractor X) (EB : Embedder B) (cfg : Config)
         (extractor : X) (embedder : B) (d : Dispatcher) (env : Env)
         (msgs : list Msg),
    disp_returned d = false ->
    disp_returned (processEvents_step cfg extractor embedder d (CtxDone env)) = true
    /\ disp_effects (processEvents_step cfg extractor embedder d (CtxDone env))
       = disp_effects d
         ++ match disp_batch d with
            | [] => []
            | batch => [CallProcessBatch batch]
            end
    /\ (disp_batch d = [] ->
        disp_store (processEvents_step cfg extractor embedder d (CtxDone env))
        = disp_store d)
    /\ processEvents cfg extractor embedder d (CtxDone env :: msgs)
       = processEvents_step cfg extractor embedder d (CtxDone env).
Proof.
  intros X B EX EB cfg extractor embedder d env msgs Hret.
  assert (H1 : disp_returned
                 (processEvents_step cfg extractor embedder d (CtxDone env)) = true).
  { unfold processEvents_step. rewrite Hret.
    destruct (disp_batch d) as [|e batch]; [reflexivity|].
    destruct (processBatch extractor embedder env (e :: batch) (disp_store d)).
    reflexivity. }
  split; [exact H1|]. split; [|split].
  - unfold processEvents_step. rewrite Hret.
    destruct (disp_batch d) as [|e batch]; [cbn; rewrite app_nil_r; reflexivity|].
    destruct (processBatch extractor embedder env (e :: batch) (disp_store d)).
    reflexivity.
  - intros Hb. unfold processEvents_step. rewrite Hret, Hb. reflexivity.
  - change (processEvents cfg extractor embedder d (CtxDone env :: msgs))
      with (processEvents cfg extractor embedder
              (processEvents_step cfg extractor embedder d (CtxDone env)) msgs).
    apply processEvents_returned. exact H1.
Qed.

Lemma shutdown_flushes_once_witness :
  disp_returned (dispatcher_start emptyStore) = false
  /\ processEvents DefaultConfig ex_extractor mkNullEmbedder
       (dispatcher_start emptyStore) (CtxDone ex_env :: ex_msgs)
     = processEvents_step DefaultConfig ex_extractor mkNullEmbedder
         (dispatcher_start emptyStore) (CtxDone ex_env).
Proof.
  split; [reflexivity|].
  exact (proj2 (proj2 (proj2
           (shutdown_flushes_once OllamaExtractor NullEmbedder _ _ DefaultConfig
              ex_extractor mkNullEmbedder (dispatcher_start emptyStore) ex_env
              ex_msgs eq_refl)))).
Defined.

(** ** More on [Recall] *)

Lemma like_self p rest : forall q,
  like p rest = true -> like (q ++ p) (q ++ rest) = true.
Proof.
  induction q as [|c q IH]; intros H; [exact H|].
  cbn [String.append].
  destruct (Ascii.eqb c "%") eqn:E1.
  - apply Ascii.eqb_eq in E1. subst c.
    apply (like_percent_intro (q ++ p) (q ++ rest) (String "%" EmptyString)).
    apply IH. exact H.
  - cbn [like]. rewrite E1.
    destruct (Ascii.eqb c "_") eqn:E2; [apply IH; exact H|].
    apply andb_true_iff. split; [apply like_char_fold; reflexivity|].
    apply IH. exact H.
Qed.

Lemma like_searchTerm_substring q text :
  substring_of q text -> like (searchTerm q) text = true.
Proof.
  intros (pre & post & ->). unfold searchTerm. cbn [String.append].
  apply like_percent_intro. apply like_self. apply like_percent_all.
Qed.

(** X10. The text filter of [Recall] never misses a literal occurrence: a
    memory whose content, summary or serialised topics contain the query
    as a substring passes the filter, whatever characters the query holds
    (the wildcards of [LIKE] included). *)
Theorem text_filter_accepts_substring :
  forall (marshal : list string -> string) (req : RecallRequest) (m : Memory),
    substring_of (Query req) (Content m)
    \/ substring_of (Query req) (Summary m)
    \/ substring_of (Query req) (marshal (Topics m)) ->
    text_filter marshal req m = true.
Proof.
  intros marshal req m H. unfold text_filter.
  destruct (Query req) as [|c q] eqn:Eq; [reflexivity|].
  destruct H as [H|[H|H]]; apply like_searchTerm_substring in H; rewrite H.
  - reflexivity.
  - apply orb_true_iff. left. apply orb_true_r.
  - apply orb_true_r.
Qed.

Lemma text_filter_accepts_substring_witness :
  (substring_of (Query ex_pkce_request) (Content ex_remembered)
   \/ substring_of (Query ex_pkce_request) (Summary ex_remembered)
   \/ substring_of (Query ex_pkce_request) (ex_marshal (Topics ex_remembered)))
  /\ text_filter ex_marshal ex_pkce_request ex_remembered = true.
Proof.
  assert (H : substring_of (Query ex_pkce_request) (Content ex_remembered)
              \/ substring_of (Query ex_pkce_request) (Summary ex_remembered)
              \/ substring_of (Query ex_pkce_request)
                   (ex_marshal (Topics ex_remembered))).
  { left. exists "Use ", " for mobile auth". reflexivity. }
  split; [exact H|].
  exact (text_filter_accepts_substring ex_marshal ex_pkce_request ex_remembered H).
Defined.

Lemma StronglySorted_app_inv {A : Type} (R : A -> A -> Prop) l1 : forall l2 a b,
  StronglySorted R (l1 ++ l2) -> In a l1 -> In b l2 -> R a b.
Proof.
  induction l1 as [|x l1 IH]; intros l2 a b Hs Ha Hb; [contradiction|].
  cbn in Hs. inversion Hs as [|? ? Hl Hx]; subst.
  destruct Ha as [->|Ha].
  - rewrite Forall_forall in Hx. apply Hx. apply in_or_app. right. exact Hb.
  - apply (IH l2); assumption.
Qed.

(** X11. [Recall] returns the best: a memory of the store that passes the
    filters of the request is returned, or else the result is full (it
    holds [limit] memories) and each memory returned ranks at least as
    high as the one left out. *)
Theorem Recall_returns_the_best :
  forall (marshal : list string -> string) (clock : nat -> Time)
         (req : RecallRequest) (s : Store) (m : Memory),
    In m (memories s) ->
    recall_where marshal req m = true ->
    In (scan_row m) (fst (Recall marshal clock req s))
    \/ (Z.of_nat (List.length (fst (Recall marshal clock req s))) = recall_limit req
        /\ forall r, In r (fst (Recall marshal clock req s)) -> ranked r (scan_row m)).
Proof.
  intros marshal clock req s m Hin Hw. unfold Recall. cbn [fst].
  unfold recall_rows.
  set (matching := order_by (filter (recall_where marshal req) (memories s))).
  set (n := Z.to_nat (recall_limit req)).
  assert (Hm : In m matching).
  { apply (Permutation_in _ (Permutation_sym (order_by_perm _))).
    apply filter_In. auto. }
  rewrite <- (firstn_skipn n matching) in Hm.
  apply in_app_or in Hm. destruct Hm as [Hm|Hm].
  - left. apply in_map. exact Hm.
  - right. split.
    + rewrite length_map, length_firstn.
      assert (Hlen : (n < List.length matching)%nat).
      { destruct (Nat.lt_ge_cases n (List.length matching)) as [H|H]; [exact H|].
        rewrite skipn_all2 in Hm by exact H. contradiction. }
      assert (0 < recall_limit req).
      { unfold recall_limit. destruct (Z.leb_spec (Limit req) 0); lia. }
      subst n. lia.
    + intros r Hr. apply in_map_iff in Hr. destruct Hr as (r0 & <- & Hr0).
      pose proof (order_by_sorted (filter (recall_where marshal req) (memories s)))
        as Hs.
      fold matching in Hs. rewrite <- (firstn_skipn n matching) in Hs.
      exact (StronglySorted_app_inv ranked _ _ r0 m Hs Hr0 Hm).
Qed.

Lemma Recall_returns_the_best_witness :
  In ex_A (memories ex_AB_store)
  /\ recall_where ex_marshal ex_all_request ex_A = true
  /\ (In (scan_row ex_A)
         (fst (Recall ex_marshal (env_clock ex_env) ex_all_request ex_AB_store))
      \/ (Z.of_nat (List.length
                      (fst (Recall ex_marshal (env_clock ex_env) ex_all_request
                              ex_AB_store)))
          = recall_limit ex_all_request
          /\ forall r,
               In r (fst (Recall ex_marshal (env_clock ex_env) ex_all_request
                            ex_AB_store)) ->
               ranked r (scan_row ex_A))).
Proof.
  assert (Hin : In ex_A (memories ex_AB_store)) by (left; reflexivity).
  assert (Hw : recall_where ex_marshal ex_all_request ex_A = true) by reflexivity.
  split; [exact Hin|]. split; [exact Hw|].
  exact (Recall_returns_the_best ex_marshal (env_clock ex_env) ex_all_request
           ex_AB_store ex_A Hin Hw).
Defined.

(** X12. Remember, then recall. When [memorypilot remember] has stored a
    memory (it returned no error), a recall by keyword whose query occurs
    in the content, and whose limit is not below the number of memories,
    returns that memory, with the confidence 1.0 and the source manual
    that the command gave it. *)
Theorem remembered_memory_is_recalled :
  forall (marshal : list string -> string) (clock : nat -> Time)
         (args : list string) (memoryType : string) (topics : list string)
         (id : string) (now : Time) (s : Store) (query : string) (limit : Z),
    args <> [] ->
    cmd_error (rememberCmd args memoryType topics true id now s) = None ->
    substring_of query (join_args args) ->
    Z.of_nat (List.length (memories s)) < recall_limit (keyword_request query limit) ->
    In (manual_memory id memoryType (join_args args) topics now)
       (fst (Recall marshal clock (keyword_request query limit)
               (cmd_store (rememberCmd args memoryType topics true id now s)))).
Proof.
  intros marshal clock args ty topics id now s query limit Hargs Herr Hsub Hlim.
  unfold rememberCmd in *.
  destruct args as [|a args]; [contradiction Hargs; reflexivity|].
  cbn [negb] in *.
  set (m := manual_memory id ty (join_args (a :: args)) topics now) in *.
  destruct (CreateMemory m s) as [s'|err] eqn:E; [|discriminate].
  apply CreateMemory_Ok in E. destruct E as (_ & _ & _ & ->).
  cbn [cmd_store]. unfold Recall. cbn [fst]. unfold recall_rows.
  cbn [memories].
  set (req := keyword_request query limit) in *.
  set (l := memories s ++ [set_embedding None m]).
  assert (Hw : recall_where marshal req m = true).
  { unfold recall_where. cbn.
    apply (text_filter_accepts_substring marshal req m).
    left. exact Hsub. }
  rewrite firstn_all2.
  - change m with (scan_row m). apply in_map.
    apply (Permutation_in _ (Permutation_sym (order_by_perm _))).
    apply filter_In. split; [|exact Hw].
    unfold l. apply in_or_app. right. left. reflexivity.
  - rewrite (Permutation_length (order_by_perm _)).
    pose proof (filter_length_le (recall_where marshal req) l) as Hle.
    unfold l in *. rewrite length_app in *. cbn in *. lia.
Qed.

Lemma remembered_memory_is_recalled_witness :
  In (manual_memory "01J9ZK3V8QMEM" "decision"
        (join_args ["Use"; "PKCE"; "for"; "mobile"; "auth"]) [] 1700000000)
     (fst (Recall ex_marshal (env_clock ex_env) (keyword_request "PKCE" 0)
             (cmd_store (rememberCmd ["Use"; "PKCE"; "for"; "mobile"; "auth"]
                           "decision" [] true "01J9ZK3V8QMEM" 1700000000
                           emptyStore)))).
Proof.
  apply remembered_memory_is_recalled.
  - discriminate.
  - reflexivity.
  - exists "Use ", " for mobile auth". reflexivity.
  - reflexivity.
Defined.

Lemma index_of_Some id rows :
  In id (map ID rows) -> exists k, index_of id rows = Some k.
Proof.
  induction rows as [|r rows IH]; cbn; intros H; [contradiction|].
  destruct (String.eqb_spec (ID r) id) as [E|E]; [eauto|].
  destruct H as [H|H]; [contradiction|].
  destruct (IH H) as [k ->]. cbn. eauto.
Qed.

(** X13. A memory that a recall returned escapes the next decay: when the
    decay task runs less than a day after the accesses of the recall, it
    leaves the row of every memory returned as the recall left it. *)
Theorem recalled_memories_escape_decay :
  forall (G : ExtractedMemory -> Prop) (marshal : list string -> string)
         (clock : nat -> Time) (req : RecallRequest) (s : Store) (now : Time),
    reachable G s ->
    (forall i, now - one_day <= clock i) ->
    Forall2
      (fun r r' =>
         In (ID r) (map ID (fst (Recall marshal clock req s))) -> r' = r)
      (memories (snd (Recall marshal clock req s)))
      (memories (DecayImportance now (snd (Recall marshal clock req s)))).
Proof.
  intros G marshal clock req s now Hs Hclock.
  pose proof (recall_rows_ids marshal req s (reachable_ids G s Hs)) as Hrows.
  unfold Recall. cbn [fst snd]. unfold DecayImportance. cbn [memories].
  apply Forall2_map_of. intros r Hr Hid.
  rewrite (record_accesses_memories clock _ 0%nat s Hrows) in Hr.
  apply in_map_iff in Hr. destruct Hr as (m & <- & Hm).
  rewrite map_map in Hid. cbn in Hid.
  assert (Hidm : In (ID m) (map ID (recall_rows marshal req s))).
  { destruct (index_of (ID m) (recall_rows marshal req s)); exact Hid. }
  destruct (index_of_Some _ _ Hidm) as [k Hk]. rewrite Hk.
  assert (Hsel : decay_selects now (access_update (clock (0 + k)%nat) m) = false).
  { apply decay_selects_false. right. cbn. apply Hclock. }
  rewrite Hsel. reflexivity.
Qed.

Lemma recalled_memories_escape_decay_witness :
  reachable any_candidate ex_remembered_store
  /\ (forall i, 1700003600 - one_day <= env_clock ex_env i)
  /\ Forall2
       (fun r r' =>
          In (ID r)
             (map ID (fst (Recall ex_marshal (env_clock ex_env) ex_pkce_request
                             ex_remembered_store))) ->
          r' = r)
       (memories (snd (Recall ex_marshal (env_clock ex_env) ex_pkce_request
                         ex_remembered_store)))
       (memories (DecayImportance 1700003600
                    (snd (Recall ex_marshal (env_clock ex_env) ex_pkce_request
                            ex_remembered_store)))).
Proof.
  assert (Hr : reachable any_candidate ex_remembered_store).
  { apply rememberCmd_reachable. apply reach_new. }
  assert (Hc : forall i, 1700003600 - one_day <= env_clock ex_env i).
  { intros i. change (env_clock ex_env i) with (1700000000 + Z.of_nat i).
    unfold one_day. lia. }
  split; [exact Hr|]. split; [exact Hc|].
  exact (recalled_memories_escape_decay any_candidate ex_marshal (env_clock ex_env)
           ex_pkce_request ex_remembered_store 1700003600 Hr Hc).
Defined.

(** ** The course of decay *)

Lemma decays_memories times : forall s,
  memories (decays times s)
  = map (fun m => fold_left (fun r t => decay_row t r) times m) (memories s).
Proof.
  unfold decays.
  induction times as [|t times IH]; intros s; cbn [fold_left].
  - symmetry. apply map_id.
  - rewrite IH. unfold decayLoop_tick, DecayImportance. cbn [memories].
    rewrite map_map. reflexivity.
Qed.

Lemma decays_reachable G times : forall s,
  reachable G s -> reachable G (decays times s).
Proof.
  unfold decays.
  induction times as [|t times IH]; intros s H; cbn; [exact H|].
  apply IH. apply reach_decay. exact H.
Qed.

Lemma decay_factor_nonneg k : (0 <= decay_factor k)%Q.
Proof. induction k as [|k IH]; cbn; lra. Qed.

Lemma decay_factor_decreasing j : forall k,
  (decay_factor (k + j) <= decay_factor k)%Q.
Proof.
  induction j as [|j IH]; intros k.
  - rewrite Nat.add_0_r. lra.
  - rewrite Nat.add_succ_r. cbn.
    specialize (IH k). pose proof (decay_factor_nonneg (k + j)). lra.
Qed.

Lemma decay_row_last_access t m :
  LastAccessedAt (decay_row t m) = LastAccessedAt m.
Proof. unfold decay_row. destruct (decay_selects t m); reflexivity. Qed.

Lemma decay_row_frozen t m : (Importance m <= 0.1)%Q -> decay_row t m = m.
Proof.
  intros H. unfold decay_row.
  destruct (decay_selects t m) eqn:E; [|reflexivity].
  apply decay_selects_true in E. destruct E as [E _]. lra.
Qed.

Lemma decay_rows_bound times : forall m k,
  (forall t, In t times -> LastAccessedAt m < t - one_day) ->
  (Importance m <= 0.1)%Q \/ (Importance m <= decay_factor k)%Q ->
  (Importance (fold_left (fun r t => decay_row t r) times m) <= 0.1)%Q
  \/ (Importance (fold_left (fun r t => decay_row t r) times m)
      <= decay_factor (k + List.length times))%Q.
Proof.
  induction times as [|t times IH]; intros m k Hstale Hm; cbn [fold_left List.length].
  - rewrite Nat.add_0_r. exact Hm.
  - rewrite Nat.add_succ_r.
    apply (IH (decay_row t m) (S k)).
    + intros t' Ht'. rewrite decay_row_last_access. apply Hstale. right. exact Ht'.
    + unfold decay_row. destruct (decay_selects t m) eqn:E.
      * right. cbn. destruct Hm as [Hm|Hm].
        -- apply decay_selects_true in E. destruct E as [E _]. lra.
        -- lra.
      * apply decay_selects_false in E. destruct E as [E|E]; [left; exact E|].
        specialize (Hstale t (or_introl eq_refl)). lia.
Qed.

Lemma decay_factor_230 : (decay_factor 230 < 0.1)%Q.
Proof. vm_compute. reflexivity. Qed.

(** X14. Decay reaches its floor and stops there. On a store that the
    program can reach, 230 runs of the decay task or more, each of them
    more than a day after the last access of every memory, leave every
    importance at most 0.1 (and above 0.099); from then on a run of the
    decay task changes nothing at all. *)
Theorem decay_reaches_the_floor :
  forall (G : ExtractedMemory -> Prop) (s : Store) (times : list Time),
    reachable G s ->
    (230 <= List.length times)%nat ->
    (forall t m, In t times -> In m (memories s) ->
                 LastAccessedAt m < t - one_day) ->
    Forall (fun m => (0.099 < Importance m)%Q /\ (Importance m <= 0.1)%Q)
           (memories (decays times s))
    /\ forall t, DecayImportance t (decays times s) = decays times s.
Proof.
  intros G s times Hs Hlen Hstale.
  assert (Hle : Forall (fun m => (Importance m <= 0.1)%Q)
                       (memories (decays times s))).
  { rewrite decays_memories. apply Forall_map. apply Forall_forall. intros m Hm.
    pose proof (reachable_importance G s Hs) as Hi. rewrite Forall_forall in Hi.
    destruct (Hi m Hm) as [_ H1].
    destruct (decay_rows_bound times m 0%nat) as [H|H].
    - intros t Ht. apply (Hstale t m); assumption.
    - right. cbn. exact H1.
    - exact H.
    - cbn [Nat.add] in H.
      pose proof (decay_factor_decreasing (List.length times - 230) 230) as Hd.
      assert (E : (230 + (List.length times - 230))%nat = List.length times)
        by lia.
      rewrite E in Hd.
      apply Qlt_le_weak.
      apply (Qle_lt_trans _ _ _ H).
      apply (Qle_lt_trans _ _ _ Hd). exact decay_factor_230. }
  split.
  - pose proof (reachable_importance G _ (decays_reachable G times s Hs)) as Hi.
    rewrite Forall_forall in *. intros m Hm.
    destruct (Hi m Hm) as [H0 _]. split; [exact H0|apply Hle; exact Hm].
  - intros t. unfold DecayImportance.
    destruct (decays times s) as [ms es]. cbn [memories events] in *.
    f_equal. rewrite <- (map_id ms) at 2. apply map_ext_in. intros m Hm.
    rewrite Forall_forall in Hle.
    apply (decay_row_frozen t m). apply Hle. exact Hm.
Qed.

Lemma decay_reaches_the_floor_witness :
  reachable any_candidate ex_remembered_store
  /\ (230 <= List.length (repeat 1800000000%Z 230))%nat
  /\ Forall (fun m => (0.099 < Importance m)%Q /\ (Importance m <= 0.1)%Q)
            (memories (decays (repeat 1800000000 230) ex_remembered_store)).
Proof.
  assert (Hr : reachable any_candidate ex_remembered_store).
  { apply rememberCmd_reachable. apply reach_new. }
  assert (Hl : (230 <= List.length (repeat 1800000000%Z 230))%nat).
  { rewrite repeat_length. apply le_n. }
  split; [exact Hr|]. split; [exact Hl|].
  apply (decay_reaches_the_floor any_candidate ex_remembered_store
           (repeat 1800000000 230) Hr Hl).
  assert (Hm : memories ex_remembered_store = [ex_remembered])
    by (vm_compute; reflexivity).
  rewrite Hm. intros t m Ht [<-|[]]. apply repeat_spec in Ht. subst t.
  change (LastAccessedAt ex_remembered) with 1700000000. unfold one_day. lia.
Defined.

(** ** The embedder bears on the embedding column only *)

Lemma has_memory_strip id s1 s2 :
  map (set_embedding None) (memories s1) = map (set_embedding None) (memories s2) ->
  has_memory id s1 = has_memory id s2.
Proof.
  intros H. apply (f_equal (map ID)) in H. rewrite !map_map in H. cbn in H.
  unfold has_memory.
  assert (Hgen : forall l, existsb (fun r => String.eqb (ID r) id) l
                           = existsb (fun x => String.eqb x id) (map ID l)).
  { induction l as [|x l IH]; cbn; [reflexivity|]. rewrite IH. reflexivity. }
  rewrite !Hgen.
  change (map (fun x => ID x) (memories s1)) with (map ID (memories s1)) in H.
  rewrite H. reflexivity.
Qed.

Lemma CreateMemory_strip m s1 s2 :
  map (set_embedding None) (memories s1) = map (set_embedding None) (memories s2) ->
  events s1 = events s2 ->
  match CreateMemory m s1, CreateMemory m s2 with
  | Ok s1', Ok s2' =>
      map (set_embedding None) (memories s1')
      = map (set_embedding None) (memories s2')
      /\ events s1' = events s2'
  | Err e1, Err e2 => e1 = e2
  | _, _ => False
  end.
Proof.
  intros Hm He. unfold CreateMemory.
  rewrite (has_memory_strip (ID m) s1 s2 Hm).
  destruct (has_memory (ID m) s2); [reflexivity|].
  destruct (str_in (Type_ m) memory_types); [|reflexivity].
  destruct (str_in (Scope m) memory_scopes); [|reflexivity].
  cbn. rewrite !map_app, Hm. auto.
Qed.

Lemma UpdateMemoryEmbedding_strip id v s :
  map (set_embedding None) (memories (UpdateMemoryEmbedding id v s))
  = map (set_embedding None) (memories s)
  /\ events (UpdateMemoryEmbedding id v s) = events s.
Proof.
  split; [|reflexivity]. cbn. rewrite map_map. apply map_ext. intros m.
  destruct (String.eqb (ID m) id); reflexivity.
Qed.

Lemma create_memories_strip {B1 B2 : Type} `{Embedder B1} `{Embedder B2}
    (b1 : B1) (b2 : B2) env extracted : forall i s1 s2,
  map (set_embedding None) (memories s1) = map (set_embedding None) (memories s2) ->
  events s1 = events s2 ->
  map (set_embedding None) (memories (fst (create_memories b1 env i extracted s1)))
  = map (set_embedding None) (memories (fst (create_memories b2 env i extracted s2)))
  /\ events (fst (create_memories b1 env i extracted s1))
     = events (fst (create_memories b2 env i extracted s2)).
Proof.
  induction extracted as [|ext rest IH]; intros i s1 s2 Hm He; cbn [create_memories].
  - cbn. auto.
  - set (memory := memory_of_extracted (env_ulid env i) (env_clock env i) ext).
    pose proof (CreateMemory_strip memory s1 s2 Hm He) as Hc.
    destruct (CreateMemory memory s1) as [s1'|e1], (CreateMemory memory s2) as [s2'|e2];
      try contradiction.
    + destruct Hc as [Hm' He'].
      assert (Hnext : forall t1 t2,
        map (set_embedding None) (memories t1)
        = map (set_embedding None) (memories s1') ->
        events t1 = events s1' ->
        map (set_embedding None) (memories t2)
        = map (set_embedding None) (memories s2') ->
        events t2 = events s2' ->
        map (set_embedding None)
            (memories (fst (create_memories b1 env (S i) rest t1)))
        = map (set_embedding None)
              (memories (fst (create_memories b2 env (S i) rest t2)))
        /\ events (fst (create_memories b1 env (S i) rest t1))
           = events (fst (create_memories b2 env (S i) rest t2))).
      { intros t1 t2 A1 A2 A3 A4. apply IH; congruence. }
      destruct (Embed b1 (Content memory)) as [[v1|]|err1];
        destruct (Embed b2 (Content memory)) as [[v2|]|err2];
        match goal with
        | |- context [create_memories b1 env (S i) rest ?t1] =>
            match goal with
            | |- context [create_memories b2 env (S i) rest ?t2] =>
                specialize (Hnext t1 t2);
                destruct (create_memories b1 env (S i) rest t1);
                destruct (create_memories b2 env (S i) rest t2)
            end
        end;
        cbn [fst] in *; apply Hnext;
        try reflexivity;
        try apply UpdateMemoryEmbedding_strip.
    + specialize (IH (S i) s1 s2 Hm He).
      destruct (create_memories b1 env (S i) rest s1),
               (create_memories b2 env (S i) rest s2). exact IH.
Qed.

(** X15. The embedder bears on the embedding column only. Whatever the
    embedder answers (a vector, nothing, an error), [processBatch] creates
    the same memories and marks the same events: two runs that differ in
    the embedder alone end in stores that are equal up to the embedding
    column. A failing embedding gateway costs no memory. *)
Theorem processBatch_whatever_the_embedder :
  forall (X B1 B2 : Type) (EX : Extractor X) (E1 : Embedder B1) (E2 : Embedder B2)
         (extractor : X) (b1 : B1) (b2 : B2) (env : Env)
         (batch : list Event) (s : Store),
    map (set_embedding None)
        (memories (fst (processBatch extractor b1 env batch s)))
    = map (set_embedding None)
          (memories (fst (processBatch extractor b2 env batch s)))
    /\ events (fst (processBatch extractor b1 env batch s))
       = events (fst (processBatch extractor b2 env batch s)).
Proof.
  intros X B1 B2 EX E1 E2 extractor b1 b2 env batch s.
  unfold processBatch.
  destruct (Extract extractor batch) as [extracted|err]; [|cbn; auto].
  pose proof (create_memories_strip b1 b2 env extracted 0%nat s s eq_refl eq_refl)
    as [Hm He].
  destruct (create_memories b1 env 0 extracted s) as [s1 lg1].
  destruct (create_memories b2 env 0 extracted s) as [s2 lg2].
  cbn [fst] in *.
  rewrite !mark_processed_memories, !mark_processed_events, He. auto.
Qed.

(** ** The git watcher *)

Lemma map_get_set k v m : map_get k (map_set k v m) = Some v.
Proof. unfold map_set. cbn. rewrite String.eqb_refl. reflexivity. Qed.

Lemma map_get_set_other k k' v m :
  k' <> k -> map_get k' (map_set k v m) = map_get k' m.
Proof.
  intros Hk. unfold map_set. cbn.
  destruct (String.eqb_spec k k') as [E|_]; [congruence|].
  induction m as [|[a b] m IH]; cbn; [reflexivity|].
  destruct (String.eqb_spec a k) as [E|E]; cbn.
  - subst a. destruct (String.eqb_spec k k'); [congruence|exact IH].
  - destruct (String.eqb a k'); [reflexivity|exact IH].
Qed.

(** X16. [checkRepo] reports a commit once. When [git log] gives the last
    commit of a repository, then after [checkRepo] the watcher remembers
    its hash for this repository and leaves the other repositories alone;
    checking again with the same last commit does nothing, on any queue,
    also when the event of the commit was dropped on a full queue. A
    repository seen for the first time yields no event; a repository seen
    before at another commit yields one [git_commit] event with the new
    hash, appended to the queue when the queue has room. *)
Theorem checkRepo_reports_once :
  forall (fp : Filepath) (repoPath : string) (git : GitOutput)
         (id : string) (now : Time) (w : GitWatcher) (q : Chan)
         (parts : list string),
    git_log_parts git = Some parts ->
    (5 <= List.length parts)%nat ->
    map_get repoPath (lastCommit (fst (fst (checkRepo fp repoPath git id now w q))))
    = Some (nth 0 parts EmptyString)
    /\ (forall repo, repo <> repoPath ->
          map_get repo (lastCommit (fst (fst (checkRepo fp repoPath git id now w q))))
          = map_get repo (lastCommit w))
    /\ (forall id' now' q',
          checkRepo fp repoPath git id' now'
            (fst (fst (checkRepo fp repoPath git id now w q))) q'
          = (fst (fst (checkRepo fp repoPath git id now w q)), q', []))
    /\ (map_get repoPath (lastCommit w) = None ->
        snd (fst (checkRepo fp repoPath git id now w q)) = q)
    /\ (forall h, map_get repoPath (lastCommit w) = Some h ->
          h <> nth 0 parts EmptyString ->
          Z.of_nat (List.length (chan_buf q)) < chan_cap q ->
          exists event,
            chan_buf (snd (fst (checkRepo fp repoPath git id now w q)))
            = chan_buf q ++ [event]
            /\ EventID event = id /\ EventType event = "git_commit"
            /\ In ("hash", VString (nth 0 parts EmptyString)) (Data event)
            /\ In ("repo", VString repoPath) (Data event)).
Proof.
  intros fp repoPath git id now w q parts Hparts Hlen.
  assert (Hlt : (List.length parts <? 5)%nat = false) by (apply Nat.ltb_ge; exact Hlen).
  assert (Hagain : forall w1 id' now' q',
            map_get repoPath (lastCommit w1) = Some (nth 0 parts EmptyString) ->
            checkRepo fp repoPath git id' now' w1 q' = (w1, q', [])).
  { intros w1 id' now' q' Hget. unfold checkRepo.
    rewrite Hparts, Hlt, Hget, String.eqb_refl. reflexivity. }
  remember (checkRepo fp repoPath git id now w q) as r eqn:Hr.
  unfold checkRepo in Hr. rewrite Hparts, Hlt in Hr.
  destruct (map_get repoPath (lastCommit w)) as [lastHash|] eqn:Hget.
  - destruct (String.eqb_spec lastHash (nth 0 parts EmptyString)) as [E|E].
    + subst r. cbn [fst snd]. split; [rewrite Hget, E; reflexivity|].
      split; [reflexivity|].
      split; [intros id' now' q'; apply Hagain; rewrite Hget, E; reflexivity|].
      split; [discriminate|].
      intros h Hh Hne. congruence.
    + destruct (send_or_drop "git" _ q) as [q1 lg] eqn:Hsend. subst r.
      cbn [fst snd].
      split; [apply map_get_set|].
      split; [intros repo Hrepo; apply map_get_set_other; exact Hrepo|].
      split; [intros id' now' q'; apply Hagain; apply map_get_set|].
      split; [discriminate|].
      intros h _ _ Hroom. unfold send_or_drop in Hsend.
      rewrite try_send_room in Hsend by exact Hroom.
      inversion Hsend; subst. cbn [chan_buf].
      eexists. split; [reflexivity|]. cbn. intuition.
  - subst r. cbn [fst snd]. split; [apply map_get_set|].
    split; [intros repo Hrepo; apply map_get_set_other; exact Hrepo|].
    split; [intros id' now' q'; apply Hagain; apply map_get_set|].
    split; [reflexivity|].
    intros h Hh. discriminate.
Qed.

Lemma checkRepo_reports_once_witness :
  git_log_parts ex_git
  = Some ["abc123"; "switch to WAL mode"; "dev"; "dev@example.org";
          "2023-11-14 22:13:20 +0000"]
  /\ map_get "/home/dev/app"
       (lastCommit (fst (fst (checkRepo ex_filepath "/home/dev/app" ex_git
                                "01J9ZK3V8QGIT" 1700000000 ex_git_watcher
                                eventQueue))))
     = Some "abc123"
  /\ (forall id' now' q',
        checkRepo ex_filepath "/home/dev/app" ex_git id' now'
          (fst (fst (checkRepo ex_filepath "/home/dev/app" ex_git
                       "01J9ZK3V8QGIT" 1700000000 ex_git_watcher eventQueue))) q'
        = (fst (fst (checkRepo ex_filepath "/home/dev/app" ex_git
                       "01J9ZK3V8QGIT" 1700000000 ex_git_watcher eventQueue)),
           q', [])).
Proof.
  assert (Hp : git_log_parts ex_git
               = Some ["abc123"; "switch to WAL mode"; "dev"; "dev@example.org";
                       "2023-11-14 22:13:20 +0000"]) by reflexivity.
  split; [exact Hp|].
  destruct (checkRepo_reports_once ex_filepath "/home/dev/app" ex_git
              "01J9ZK3V8QGIT" 1700000000 ex_git_watcher eventQueue _ Hp)
    as (H1 & _ & H3 & _).
  - cbn. lia.
  - split; [exact H1|exact H3].
Defined.

(** ** The terminal watcher *)

Lemma starts_with_length p : forall s,
  starts_with p s = true -> (String.length p <= String.length s)%nat.
Proof.
  induction p as [|c p IH]; intros s H; cbn; [lia|].
  destruct s as [|d s]; [discriminate|].
  cbn in H. apply andb_true_iff in H. destruct H as [_ H].
  specialize (IH s H). cbn. lia.
Qed.

Lemma starts_with_both p : forall p' s,
  starts_with p s = true -> starts_with p' s = true -> compatible p p' = true.
Proof.
  unfold compatible.
  induction p as [|c p IH]; intros p' s H H'; [reflexivity|].
  destruct p' as [|c' p']; [apply orb_true_r|].
  destruct s as [|d s]; [discriminate|].
  cbn in H, H'. apply andb_true_iff in H, H'.
  destruct H as [Hc H], H' as [Hc' H'].
  apply Ascii.eqb_eq in Hc, Hc'. subst c c'.
  specialize (IH p' s H H'). cbn. rewrite Ascii.eqb_refl. exact IH.
Qed.

Lemma has_prefix_in_true prefixes cmd :
  has_prefix_in prefixes cmd = true <->
  exists p, In p prefixes /\ starts_with p cmd = true.
Proof. unfold has_prefix_in. apply existsb_exists. Qed.

Lemma sensitive_not_interesting cmd :
  has_prefix_in interestingStarts cmd = true ->
  has_prefix_in sensitiveStarts cmd = false.
Proof.
  intros H. apply has_prefix_in_true in H. destruct H as (p & Hp & Hs).
  apply not_true_is_false. intros H'. apply has_prefix_in_true in H'.
  destruct H' as (p' & Hp' & Hs').
  pose proof (starts_with_both p' p cmd Hs' Hs) as Hc.
  assert (Hall : forallb (fun a => forallb (fun b => negb (compatible a b))
                                           interestingStarts)
                         sensitiveStarts = true) by (vm_compute; reflexivity).
  rewrite forallb_forall in Hall. specialize (Hall p' Hp').
  rewrite forallb_forall in Hall. specialize (Hall p Hp).
  rewrite Hc in Hall. discriminate.
Qed.

Lemma interesting_length cmd :
  has_prefix_in interestingStarts cmd = true -> (String.length cmd <? 3)%nat = false.
Proof.
  intros H. apply has_prefix_in_true in H. destruct H as (p & Hp & Hs).
  apply starts_with_length in Hs.
  assert (Hall : forallb (fun a => (3 <=? String.length a)%nat) interestingStarts
                 = true) by (vm_compute; reflexivity).
  rewrite forallb_forall in Hall. specialize (Hall p Hp).
  apply Nat.leb_le in Hall. apply Nat.ltb_ge. lia.
Qed.

(** X17. The terminal watcher records the commands of the whitelist and no
    others: a command is interesting exactly when it starts with one of the
    thirteen prefixes of [interestingStarts] and its first field is not a
    noise command. The test of length and the blacklist of sensitive
    prefixes take nothing away from that; a command that starts with a
    sensitive prefix ([export], [curl], [ssh], ...) is never interesting. *)
Theorem isInteresting_is_the_whitelist :
  forall (lib : Strings) (cmd : string),
    (TerminalWatcher_isInteresting lib cmd = true <->
     has_prefix_in interestingStarts cmd = true /\ base_is_noise lib cmd = false)
    /\ (has_prefix_in sensitiveStarts cmd = true ->
        TerminalWatcher_isInteresting lib cmd = false)
    /\ ((String.length cmd < 3)%nat ->
        TerminalWatcher_isInteresting lib cmd = false).
Proof.
  intros lib cmd. unfold TerminalWatcher_isInteresting.
  split; [|split].
  - split.
    + destruct (String.length cmd <? 3)%nat; [discriminate|].
      destruct (has_prefix_in sensitiveStarts cmd); [discriminate|].
      destruct (base_is_noise lib cmd); [discriminate|]. auto.
    + intros [Hi Hn].
      rewrite (interesting_length cmd Hi), (sensitive_not_interesting cmd Hi), Hn.
      exact Hi.
  - intros Hs. rewrite Hs. destruct (String.length cmd <? 3)%nat; reflexivity.
  - intros Hl. apply Nat.ltb_lt in Hl. rewrite Hl. reflexivity.
Qed.

Lemma split_first_at sep meta : forall cmd,
  contains (String sep EmptyString) meta = false ->
  split_first sep (meta ++ String sep cmd) = Some (meta, cmd).
Proof.
  induction meta as [|c meta IH]; intros cmd H; cbn.
  - rewrite Ascii.eqb_refl. reflexivity.
  - cbn in H. apply orb_false_iff in H. destruct H as [Hc H].
    rewrite andb_true_r in Hc. rewrite Ascii.eqb_sym, Hc.
    rewrite (IH cmd H). reflexivity.
Qed.

(** X18. An entry of the extended history of zsh, [: start:elapsed;command],
    is read back as its command: [parseHistoryLine] cuts at the first [;],
    so that a command which itself holds a [;] is kept whole. A line of a
    history file whose path does not hold [zsh] is taken as it is. *)
Theorem parseHistoryLine_zsh_entry :
  forall (lib : Strings) (historyFile meta cmd : string),
    contains "zsh" historyFile = true ->
    contains ";" meta = false ->
    parseHistoryLine lib (":" ++ meta ++ ";" ++ cmd) historyFile
    = TrimSpace lib cmd
    /\ (forall other line,
          contains "zsh" other = false ->
          parseHistoryLine lib line other = TrimSpace lib line).
Proof.
  intros lib historyFile meta cmd Hz Hm. split.
  - unfold parseHistoryLine. rewrite Hz. cbn [andb String.append starts_with].
    rewrite Ascii.eqb_refl. cbn [andb split_first].
    change (Ascii.eqb ":" ";") with false. cbn iota.
    change (String ";" cmd) with (String ";" cmd).
    rewrite (split_first_at ";" meta cmd Hm). reflexivity.
  - intros other line Ho. unfold parseHistoryLine. rewrite Ho. reflexivity.
Qed.

Lemma parseHistoryLine_zsh_entry_witness :
  contains "zsh" "/home/dev/.zsh_history" = true
  /\ contains ";" " 1700000000:0" = false
  /\ parseHistoryLine ex_strings (":" ++ " 1700000000:0" ++ ";" ++ "cd app; make test")
       "/home/dev/.zsh_history"
     = TrimSpace ex_strings "cd app; make test".
Proof.
  assert (H1 : contains "zsh" "/home/dev/.zsh_history" = true) by reflexivity.
  assert (H2 : contains ";" " 1700000000:0" = false) by reflexivity.
  split; [exact H1|]. split; [exact H2|].
  exact (proj1 (parseHistoryLine_zsh_entry ex_strings "/home/dev/.zsh_history"
                  " 1700000000:0" "cd app; make test" H1 H2)).
Defined.

(** ** The history files *)

Lemma pos_get_filter path p : forall positions,
  p <> path ->
  pos_get path (filter (fun pn => negb (String.eqb (fst pn) p)) positions)
  = pos_get path positions.
Proof.
  induction positions as [|[p' n] rest IH]; intros Hne; [reflexivity|].
  cbn [filter fst pos_get].
  destruct (String.eqb_spec p' p) as [E|E]; cbn [negb].
  - subst p'. destruct (String.eqb_spec p path) as [E'|_]; [contradiction|].
    apply IH. exact Hne.
  - cbn [pos_get]. destruct (String.eqb p' path); [reflexivity|].
    apply IH. exact Hne.
Qed.

Lemma pos_get_set path n positions : pos_get path (pos_set path n positions) = n.
Proof. unfold pos_set. cbn [pos_get]. rewrite String.eqb_refl. reflexivity. Qed.

Lemma pos_get_set_other path p n positions :
  p <> path -> pos_get path (pos_set p n positions) = pos_get path positions.
Proof.
  intros Hne. unfold pos_set. cbn [pos_get].
  destruct (String.eqb_spec p path) as [E|_]; [contradiction|].
  apply pos_get_filter. exact Hne.
Qed.

Lemma quiet_pos_set fs positions p size path :
  hist_size (fs p) = Some size ->
  (p <> path -> quiet fs positions path) ->
  quiet fs (pos_set p size positions) path.
Proof.
  intros Hsize H. unfold quiet. destruct (String.eqb_spec p path) as [E|E].
  - subst p. rewrite Hsize, pos_get_set. left. lia.
  - rewrite (pos_get_set_other path p size positions E). exact (H E).
Qed.

Lemma checkHistory_quiet lib fs env : forall files i positions q,
  (forall path, In path files -> quiet fs positions path) ->
  checkHistory lib fs env i files positions q = (positions, q, []).
Proof.
  induction files as [|p rest IH]; intros i positions q H; cbn [checkHistory];
    [reflexivity|].
  pose proof (H p (or_introl eq_refl)) as Hp. unfold quiet in Hp.
  assert (Hrest : forall path, In path rest -> quiet fs positions path)
    by (intros path Hin; apply H; right; exact Hin).
  destruct (hist_size (fs p)) as [size|]; [|apply IH; exact Hrest].
  destruct (Z.leb_spec size (pos_get p positions)) as [Hle|Hlt];
    [apply IH; exact Hrest|].
  destruct Hp as [Hp|Hp]; [lia|]. rewrite Hp. apply IH. exact Hrest.
Qed.

Lemma checkHistory_keeps_quiet lib fs env path : forall files i positions q,
  quiet fs positions path ->
  quiet fs (fst (fst (checkHistory lib fs env i files positions q))) path.
Proof.
  induction files as [|p rest IH]; intros i positions q H; cbn [checkHistory];
    [exact H|].
  destruct (hist_size (fs p)) as [size|] eqn:Hsize; [|apply IH; exact H].
  destruct (size <=? pos_get p positions); [apply IH; exact H|].
  destruct (hist_lines (fs p) (pos_get p positions)) as [lines|];
    [|apply IH; exact H].
  destruct (scan_lines lib p env i lines q) as [[i' q1] lg1].
  pose proof (IH i' (pos_set p size positions) q1
                (quiet_pos_set fs positions p size path Hsize (fun _ => H))) as H'.
  destruct (checkHistory lib fs env i' rest (pos_set p size positions) q1)
    as [[positions' q'] lg].
  exact H'.
Qed.

Lemma checkHistory_makes_quiet lib fs env path : forall files i positions q,
  In path files ->
  quiet fs (fst (fst (checkHistory lib fs env i files positions q))) path.
Proof.
  induction files as [|p rest IH]; intros i positions q Hin; [contradiction|].
  cbn [checkHistory].
  destruct (hist_size (fs p)) as [size|] eqn:Hsize.
  - destruct (Z.leb_spec size (pos_get p positions)) as [Hle|Hlt].
    + destruct Hin as [<-|Hin]; [|apply IH; exact Hin].
      apply checkHistory_keeps_quiet. unfold quiet. rewrite Hsize. left. exact Hle.
    + destruct (hist_lines (fs p) (pos_get p positions)) as [lines|] eqn:Hopen.
      * destruct (scan_lines lib p env i lines q) as [[i' q1] lg1].
        pose proof (IH i' (pos_set p size positions) q1) as IH'.
        pose proof (checkHistory_keeps_quiet lib fs env path rest i'
                      (pos_set p size positions) q1) as Hk.
        destruct (checkHistory lib fs env i' rest (pos_set p size positions) q1)
          as [[positions' q'] lg].
        destruct Hin as [<-|Hin]; [|apply IH'; exact Hin].
        apply Hk. apply quiet_pos_set; [exact Hsize|]. intros Hne. contradiction.
      * destruct Hin as [<-|Hin]; [|apply IH; exact Hin].
        apply checkHistory_keeps_quiet. unfold quiet. rewrite Hsize. right.
        exact Hopen.
  - destruct Hin as [<-|Hin]; [|apply IH; exact Hin].
    apply checkHistory_keeps_quiet. unfold quiet. rewrite Hsize. exact I.
Qed.

Lemma Start_keeps_position fs path size : forall files positions,
  hist_size (fs path) = Some size ->
  pos_get path positions = size ->
  pos_get path (TerminalWatcher_Start fs files positions) = size.
Proof.
  induction files as [|p rest IH]; intros positions Hsize H;
    cbn [TerminalWatcher_Start]; [exact H|].
  apply IH; [exact Hsize|].
  destruct (hist_size (fs p)) as [n|] eqn:Hp; [|exact H].
  destruct (String.eqb_spec p path) as [E|E].
  - subst p. rewrite pos_get_set. congruence.
  - rewrite (pos_get_set_other path p n positions E). exact H.
Qed.

Lemma Start_position fs path size : forall files positions,
  In path files ->
  hist_size (fs path) = Some size ->
  pos_get path (TerminalWatcher_Start fs files positions) = size.
Proof.
  induction files as [|p rest IH]; intros positions Hin Hsize; [contradiction|].
  cbn [TerminalWatcher_Start]. destruct (String.eqb_spec p path) as [E|E].
  - subst p. rewrite Hsize. apply Start_keeps_position; [exact Hsize|].
    apply pos_get_set.
  - destruct Hin as [Hin|Hin]; [contradiction|]. apply IH; assumption.
Qed.

(** X19. The history that exists when the terminal watcher starts is never
    reported: after [Start] has taken the size of every history file, a
    check of the same files sends no event, logs nothing and leaves the
    positions as they are, whatever the files hold. *)
Theorem Start_skips_the_old_history :
  forall (lib : Strings) (fs : string -> HistoryRead) (env : Env) (i : nat)
         (historyFiles : list string) (positions : list (string * Z)) (q : Chan),
    checkHistory lib fs env i historyFiles
      (TerminalWatcher_Start fs historyFiles positions) q
    = (TerminalWatcher_Start fs historyFiles positions, q, []).
Proof.
  intros lib fs env i historyFiles positions q.
  apply checkHistory_quiet. intros path Hin. unfold quiet.
  destruct (hist_size (fs path)) as [size|] eqn:Hsize; [|exact I].
  left. rewrite (Start_position fs path size historyFiles positions Hin Hsize).
  lia.
Qed.

(** X20. No line of a history file is reported twice: a check that follows
    another one, the files being as they were, sends no event, logs nothing
    and leaves the positions as the first check set them. *)
Theorem checkHistory_reads_once :
  forall (lib : Strings) (fs : string -> HistoryRead) (env : Env) (i j : nat)
         (historyFiles : list string) (positions : list (string * Z))
         (q q2 : Chan),
    checkHistory lib fs env j historyFiles
      (fst (fst (checkHistory lib fs env i historyFiles positions q))) q2
    = (fst (fst (checkHistory lib fs env i historyFiles positions q)), q2, []).
Proof.
  intros lib fs env i j historyFiles positions q q2.
  apply checkHistory_quiet. intros path Hin.
  apply checkHistory_makes_quiet. exact Hin.
Qed.

Lemma isInteresting_inv lib cmd :
  TerminalWatcher_isInteresting lib cmd = true ->
  (3 <= String.length cmd)%nat
  /\ has_prefix_in sensitiveStarts cmd = false
  /\ base_is_noise lib cmd = false
  /\ has_prefix_in interestingStarts cmd = true.
Proof.
  unfold TerminalWatcher_isInteresting. intros H.
  destruct (Nat.ltb_spec (String.length cmd) 3) as [Hl|Hl]; [discriminate|].
  destruct (has_prefix_in sensitiveStarts cmd); [discriminate|].
  destruct (base_is_noise lib cmd); [discriminate|].
  repeat split; [exact Hl|exact H].
Qed.

Lemma emitEvent_buf cmd id now q :
  chan_buf (fst (TerminalWatcher_emitEvent cmd id now q)) = chan_buf q
  \/ chan_buf (fst (TerminalWatcher_emitEvent cmd id now q))
     = chan_buf q ++ [mkEvent id "terminal_cmd" now [("command", VString cmd)] None].
Proof.
  unfold TerminalWatcher_emitEvent, send_or_drop, try_send.
  destruct (Z.of_nat (List.length (chan_buf q)) <? chan_cap q); cbn [fst chan_buf];
    [right|left]; reflexivity.
Qed.

Lemma scan_lines_sound lib path env : forall lines i q,
  exists added,
    chan_buf (snd (fst (scan_lines lib path env i lines q))) = chan_buf q ++ added
    /\ Forall (fun e => EventType e = "terminal_cmd"
                 /\ exists cmd, command_of e = Some cmd
                      /\ TerminalWatcher_isInteresting lib cmd = true) added.
Proof.
  induction lines as [|line rest IH]; intros i q; cbn [scan_lines].
  - exists []. cbn [fst snd]. rewrite app_nil_r. split; [reflexivity|constructor].
  - destruct (negb (String.eqb (parseHistoryLine lib line path) EmptyString)
              && TerminalWatcher_isInteresting lib (parseHistoryLine lib line path))
      eqn:E; [|apply IH].
    apply andb_true_iff in E. destruct E as [_ E].
    pose proof (emitEvent_buf (parseHistoryLine lib line path) (env_ulid env i)
                  (env_clock env i) q) as Hq.
    destruct (TerminalWatcher_emitEvent (parseHistoryLine lib line path)
                (env_ulid env i) (env_clock env i) q) as [q1 lg1].
    cbn [fst] in Hq.
    destruct (IH (S i) q1) as (added & Hb & Hf).
    destruct (scan_lines lib path env (S i) rest q1) as [[i' q'] lg].
    cbn [fst snd] in *. destruct Hq as [Hq|Hq]; rewrite Hq in Hb.
    + exists added. split; assumption.
    + exists (mkEvent (env_ulid env i) "terminal_cmd" (env_clock env i)
                [("command", VString (parseHistoryLine lib line path))] None
              :: added).
      split; [rewrite Hb, <- app_assoc; reflexivity|].
      constructor; [|exact Hf]. split; [reflexivity|].
      exists (parseHistoryLine lib line path). split; [reflexivity|exact E].
Qed.

(** X21. What the terminal watcher puts on the queue: a check of the history
    files leaves the events that wait on the queue in place and adds only
    [terminal_cmd] events, each of them for a command of three bytes or more
    that starts with a prefix of the whitelist, starts with none of the
    sensitive prefixes ([export ], [curl ], [ssh ], ...) and is not a noise
    command. *)
Theorem checkHistory_reports_the_whitelist :
  forall (lib : Strings) (fs : string -> HistoryRead) (env : Env) (i : nat)
         (historyFiles : list string) (positions : list (string * Z)) (q : Chan),
    exists added,
      chan_buf (snd (fst (checkHistory lib fs env i historyFiles positions q)))
      = chan_buf q ++ added
      /\ Forall (fun e => EventType e = "terminal_cmd"
                   /\ exists cmd, command_of e = Some cmd
                        /\ (3 <= String.length cmd)%nat
                        /\ has_prefix_in sensitiveStarts cmd = false
                        /\ base_is_noise lib cmd = false
                        /\ has_prefix_in interestingStarts cmd = true) added.
Proof.
  intros lib fs env i historyFiles. revert i.
  induction historyFiles as [|p rest IH]; intros i positions q; cbn [checkHistory].
  - exists []. cbn [fst snd]. rewrite app_nil_r. split; [reflexivity|constructor].
  - destruct (hist_size (fs p)) as [size|]; [|apply IH].
    destruct (size <=? pos_get p positions); [apply IH|].
    destruct (hist_lines (fs p) (pos_get p positions)) as [lines|]; [|apply IH].
    destruct (scan_lines_sound lib p env lines i q) as (added1 & Hb1 & Hf1).
    destruct (scan_lines lib p env i lines q) as [[i' q1] lg1].
    destruct (IH i' (pos_set p size positions) q1) as (added & Hb & Hf).
    destruct (checkHistory lib fs env i' rest (pos_set p size positions) q1)
      as [[positions' q'] lg].
    cbn [fst snd] in *. exists (added1 ++ added).
    split; [rewrite Hb, Hb1, app_assoc; reflexivity|].
    apply Forall_app. split; [|exact Hf].
    apply (Forall_impl _ (P := fun e => EventType e = "terminal_cmd"
                   /\ exists cmd, command_of e = Some cmd
                        /\ TerminalWatcher_isInteresting lib cmd = true));
      [|exact Hf1].
    intros e (Ht & cmd & Hc & Hi). split; [exact Ht|].
    exists cmd. split; [exact Hc|]. apply isInteresting_inv. exact Hi.
Qed.

Lemma emitEvent_room cmd id now q :
  Z.of_nat (List.length (chan_buf q)) < chan_cap q ->
  TerminalWatcher_emitEvent cmd id now q
  = (mkChan (chan_cap q)
       (chan_buf q ++ [mkEvent id "terminal_cmd" now [("command", VString cmd)] None]),
     [LogTerminalEvent (truncate cmd 50)]).
Proof.
  intros H. unfold TerminalWatcher_emitEvent, send_or_drop.
  rewrite (try_send_room _ q H). reflexivity.
Qed.

Lemma scan_lines_complete lib path env : forall lines i q,
  Z.of_nat (List.length (chan_buf q) + List.length lines) <= chan_cap q ->
  exists added,
    chan_buf (snd (fst (scan_lines lib path env i lines q))) = chan_buf q ++ added
    /\ map command_of added
       = map Some (filter (TerminalWatcher_isInteresting lib)
                     (map (fun line => parseHistoryLine lib line path) lines))
    /\ map EventID added = map (env_ulid env) (seq i (List.length added)).
Proof.
  induction lines as [|line rest IH]; intros i q Hroom;
    cbn [scan_lines map filter List.length] in *.
  - exists []. cbn [fst snd]. rewrite app_nil_r. repeat split.
  - assert (E : negb (String.eqb (parseHistoryLine lib line path) EmptyString)
                && TerminalWatcher_isInteresting lib (parseHistoryLine lib line path)
                = TerminalWatcher_isInteresting lib (parseHistoryLine lib line path)).
    { destruct (String.eqb_spec (parseHistoryLine lib line path) EmptyString) as [E|E];
        [rewrite E|]; reflexivity. }
    rewrite E. clear E.
    destruct (TerminalWatcher_isInteresting lib (parseHistoryLine lib line path)).
    + rewrite emitEvent_room by lia.
      destruct (IH (S i)
                  (mkChan (chan_cap q)
                     (chan_buf q
                      ++ [mkEvent (env_ulid env i) "terminal_cmd" (env_clock env i)
                            [("command", VString (parseHistoryLine lib line path))]
                            None])))
        as (added & Hb & Hc & Hid).
      { cbn [chan_buf chan_cap]. rewrite length_app. cbn [List.length]. lia. }
      destruct (scan_lines lib path env (S i) rest _) as [[i' q'] lg].
      cbn [fst snd chan_buf] in *.
      exists (mkEvent (env_ulid env i) "terminal_cmd" (env_clock env i)
                [("command", VString (parseHistoryLine lib line path))] None
              :: added).
      split; [rewrite Hb, <- app_assoc; reflexivity|].
      split; cbn [map List.length seq]; [rewrite Hc|rewrite Hid]; reflexivity.
    + apply IH. lia.
Qed.

(** X22. A history file that has grown is reported in full: when one file
    is larger than its last position and can be opened, the other files
    have nothing to read and the queue has room for the lines read, the
    check moves the position of the file to its size and adds to the queue
    one event for each line whose command is interesting, in the order of
    the file, with the identifiers that the generator gives in turn. *)
Theorem checkHistory_reports_new_lines :
  forall (lib : Strings) (fs : string -> HistoryRead) (env : Env) (i : nat)
         (path : string) (rest : list string) (positions : list (string * Z))
         (q : Chan) (size : Z) (lines : list string),
    hist_size (fs path) = Some size ->
    pos_get path positions < size ->
    hist_lines (fs path) (pos_get path positions) = Some lines ->
    (forall p, In p rest -> p <> path /\ quiet fs positions p) ->
    Z.of_nat (List.length (chan_buf q) + List.length lines) <= chan_cap q ->
    fst (fst (checkHistory lib fs env i (path :: rest) positions q))
    = pos_set path size positions
    /\ exists added,
         chan_buf (snd (fst (checkHistory lib fs env i (path :: rest) positions q)))
         = chan_buf q ++ added
         /\ map command_of added
            = map Some (filter (TerminalWatcher_isInteresting lib)
                          (map (fun line => parseHistoryLine lib line path) lines))
         /\ map EventID added = map (env_ulid env) (seq i (List.length added)).
Proof.
  intros lib fs env i path rest positions q size lines Hsize Hlt Hopen Hrest Hroom.
  cbn [checkHistory]. rewrite Hsize.
  destruct (Z.leb_spec size (pos_get path positions)) as [Hle|_]; [lia|].
  rewrite Hopen.
  destruct (scan_lines_complete lib path env lines i q Hroom) as (added & Hb & Hc & Hid).
  destruct (scan_lines lib path env i lines q) as [[i' q1] lg1].
  rewrite (checkHistory_quiet lib fs env rest i' (pos_set path size positions) q1).
  - cbn [fst snd] in *. split; [reflexivity|].
    exists added. split; [exact Hb|]. split; [exact Hc|exact Hid].
  - intros p Hin. destruct (Hrest p Hin) as [Hne Hq].
    apply quiet_pos_set; [exact Hsize|]. intros _. exact Hq.
Qed.

Lemma checkHistory_reports_new_lines_witness :
  hist_size (ex_history "/home/dev/.zsh_history") = Some 120
  /\ exists added,
       chan_buf (snd (fst (checkHistory ex_strings ex_history ex_env 0
                             ["/home/dev/.zsh_history"] [] eventQueue)))
       = chan_buf eventQueue ++ added
       /\ map command_of added = [Some "git commit -m wip"; Some "make test"].
Proof.
  assert (Hsize : hist_size (ex_history "/home/dev/.zsh_history") = Some 120)
    by reflexivity.
  split; [exact Hsize|].
  destruct (checkHistory_reports_new_lines ex_strings ex_history ex_env 0
              "/home/dev/.zsh_history" [] [] eventQueue 120
              [": 1700000000:0;git commit -m wip"; ": 1700000001:0;ls -la";
               ": 1700000002:0;export TOKEN=abc"; ": 1700000003:0;make test"]
              Hsize)
    as (_ & added & Hb & Hc & _).
  - cbn [pos_get]. lia.
  - reflexivity.
  - intros p [].
  - vm_compute. discriminate.
  - exists added. split; [exact Hb|exact Hc].
Defined.
